(** * a2m.itertools: [flatten] and [isplit]

    A shallow embedding of the two generator functions of
    [a2m/itertools.py] and the properties their specification states.

    Python generators are modelled as explicit suspended frames: calling
    a generator function only builds the frame ([ICreated], [FCreated]);
    the body runs when the consumer asks for an element ([isplit_next],
    [flatten_next]), up to the next [yield], [return] or uncaught
    exception.

    Text is a [string], its characters are [ascii] (code points 0..255);
    the lists [chunk] and [window] of the source are [list ascii]. *)

From Stdlib Require Import List String Ascii ZArith Bool Arith Lia.
Import ListNotations.
Open Scope string_scope.
Open Scope list_scope.
Open Scope nat_scope.

Set Warnings "-register-all".

(** ** Python values, types and exceptions *)

Inductive value : Type :=
| VNone
| VBool (b : bool)
| VInt (z : Z)
| VFloat (repr : string)
| VStr (s : string)
| VList (elems : list value)
| VTuple (elems : list value).

Inductive pytype : Type :=
| TNoneType | TBool | TInt | TFloat | TStr | TList | TTuple.

Definition type_of (v : value) : pytype :=
  match v with
  | VNone => TNoneType
  | VBool _ => TBool
  | VInt _ => TInt
  | VFloat _ => TFloat
  | VStr _ => TStr
  | VList _ => TList
  | VTuple _ => TTuple
  end.

Definition pytype_eqb (a b : pytype) : bool :=
  match a, b with
  | TNoneType, TNoneType | TBool, TBool | TInt, TInt | TFloat, TFloat
  | TStr, TStr | TList, TList | TTuple, TTuple => true
  | _, _ => false
  end.

(** [bool] is a subclass of [int]; the other modelled types are unrelated. *)
Definition issubclass (a b : pytype) : bool :=
  pytype_eqb a b ||
  match a, b with
  | TBool, TInt => true
  | _, _ => false
  end.

(** [isinstance(v, types)] for a tuple of types. *)
Definition isinstance (v : value) (types : list pytype) : bool :=
  existsb (issubclass (type_of v)) types.

(** [six.string_types] and [six.integer_types]. *)
Definition string_types : list pytype := [TStr].
Definition integer_types : list pytype := [TInt].

Inductive exn : Type :=
| TypeError (msg : string)
| ValueError (msg : string)
| OtherError (name : string).

Definition is_TypeError (e : exn) : bool :=
  match e with TypeError _ => true | _ => false end.

Definition is_ValueError (e : exn) : bool :=
  match e with ValueError _ => true | _ => false end.

(** What one [next(g)] gives the consumer. *)
Inductive signal (A : Type) : Type :=
| Yield (a : A)
| StopIteration
| Raise (e : exn).

Arguments Yield {A} a.
Arguments StopIteration {A}.
Arguments Raise {A} e.

(** [iter(v)]: a string iterates over its one-character strings, a list
    or tuple over its elements; anything else is not iterable.  An
    iterator is the list of the elements it has not produced yet. *)
Definition char_str (c : ascii) : string := String c EmptyString.

Definition py_iter (v : value) : exn + list value :=
  match v with
  | VStr s => inr (map (fun c => VStr (char_str c)) (list_ascii_of_string s))
  | VList l => inr l
  | VTuple l => inr l
  | _ => inl (TypeError "object is not iterable")
  end.

(** ** Consuming a generator *)

Section Consume.

Variables G A : Type.
Variable next : G -> signal A * G.

(** The elements a consumer receives when it pulls until the sequence
    ends, and the exception that ended it, if any.  [list(g)] returns
    the elements when there is no exception and raises it otherwise.
    [None]: the fuel ran out before the end. *)
Fixpoint consume (fuel : nat) (r : signal A * G) : option (list A * option exn) :=
  match r with
  | (StopIteration, _) => Some ([], None)
  | (Raise e, _) => Some ([], Some e)
  | (Yield a, g) =>
      match fuel with
      | O => None
      | S fuel' =>
          match consume fuel' (next g) with
          | Some (l, e) => Some (a :: l, e)
          | None => None
          end
      end
  end.

End Consume.

Arguments consume {G A} next fuel r.

(** ** isplit *)

(** [char.isspace()] on code points 0..255: TAB..CR, FS..US, space,
    NEL and NBSP. *)
Definition isspace (c : ascii) : bool :=
  let n := nat_of_ascii c in
  ((9 <=? n) && (n <=? 13)) || ((28 <=? n) && (n <=? 32)) ||
  (n =? 133) || (n =? 160).

(** [joined = six.text_type('').join] *)
Definition joined (chunk : list ascii) : string := string_of_list_ascii chunk.

Definition nonempty {A : Type} (l : list A) : bool :=
  match l with [] => false | _ :: _ => true end.

Fixpoint list_ascii_eqb (a b : list ascii) : bool :=
  match a, b with
  | [], [] => true
  | x :: a', y :: b' => Ascii.eqb x y && list_ascii_eqb a' b'
  | _, _ => false
  end.

(** [collections.deque(iterable, maxlen)]: a bounded deque that is full
    discards its leftmost item when one is appended. *)
Record deque : Type := { maxlen : nat; items : list ascii }.

Definition deque_new (n : nat) : deque := {| maxlen := n; items := [] |}.

Definition deque_append (d : deque) (c : ascii) : deque :=
  if maxlen d =? 0 then d
  else if List.length (items d) =? maxlen d
       then {| maxlen := maxlen d; items := tl (items d) ++ [c] |}
       else {| maxlen := maxlen d; items := items d ++ [c] |}.

(** [None] stands for the IndexError of an empty deque. *)
Definition deque_popleft (d : deque) : option (ascii * deque) :=
  match items d with
  | [] => None
  | c :: rest => Some (c, {| maxlen := maxlen d; items := rest |})
  end.

Definition deque_clear (d : deque) : deque :=
  {| maxlen := maxlen d; items := [] |}.

(** The name [window] is bound to the deque, and on line 294 rebound to
    a tuple. *)
Inductive window_t : Type :=
| WDeque (d : deque)
| WTuple (t : list ascii).

Definition window_items (w : window_t) : list ascii :=
  match w with
  | WDeque d => items d
  | WTuple t => t
  end.

(** A suspended or finished frame of [isplit]. *)
Inductive isplit_gen : Type :=
| ICreated (text sep maxsplit : value)
    (* built by the call, body not started *)
| IAtWsYield (maxsplit : Z) (it chunk : list ascii) (splitcount : Z)
    (* suspended at the yield of line 271 *)
| IAtWsLast
    (* suspended at the yield of line 276 *)
| IAtLitYield (sep : list ascii) (maxsplit : Z) (it : list ascii)
              (window : deque) (chunk : list ascii) (splitcount : Z)
    (* suspended at the yield of line 296 *)
| IAtLitLast
    (* suspended at the yield of line 302 *)
| IFinished.

(** The call itself: a generator function returns its frame. *)
Definition isplit (text sep maxsplit : value) : isplit_gen :=
  ICreated text sep maxsplit.

(** Lines 274-276: the [else] of the whitespace loop. *)
Definition ws_else (chunk : list ascii) : signal string * isplit_gen :=
  if nonempty chunk then (Yield (joined chunk), IAtWsLast)
  else (StopIteration, IFinished).

(** Lines 263-276, from the top of the [for] up to the next suspension.
    On line 269 [chunk.extend(it)] exhausts [it], so the [continue] of
    line 270 leaves the loop through its [else]. *)
Fixpoint ws_loop (maxsplit : Z) (it chunk : list ascii) (splitcount : Z)
  : signal string * isplit_gen :=
  match it with
  | [] => ws_else chunk
  | char :: it' =>
      if negb (isspace char) then
        ws_loop maxsplit it' (chunk ++ [char]) splitcount
      else if nonempty chunk then
        if (splitcount =? maxsplit)%Z then
          ws_else ((chunk ++ [char]) ++ it')
        else
          (Yield (joined chunk), IAtWsYield maxsplit it' chunk splitcount)
      else
        ws_loop maxsplit it' chunk splitcount
  end.

(** One pass through lines 288-299, after [char] was taken from [it]. *)
Inductive lit_action : Type :=
| LitContinue (window : deque) (chunk : list ascii)
    (* no match: next iteration *)
| LitYield (window : deque) (chunk : list ascii)
    (* match: the yield of line 296 *)
| LitRest (window_tuple chunk : list ascii).
    (* match at the limit: line 294 takes the rest of [it] *)

Definition lit_body (sep : list ascii) (maxsplit : Z) (char : ascii)
    (window : deque) (chunk : list ascii) (splitcount : Z) : lit_action :=
  let window := deque_append window char in
  let '(window, chunk) :=
    if List.length (items window) =? maxlen window then
      match deque_popleft window with
      | Some (c, w) => (w, chunk ++ [c])
      | None => (window, chunk)   (* not reached: maxlen = len(sep) + 1 *)
      end
    else (window, chunk) in
  let window_tuple := items window in
  if list_ascii_eqb window_tuple sep then
    if (splitcount =? maxsplit)%Z then LitRest window_tuple chunk
    else LitYield window chunk
  else LitContinue window chunk.

(** Lines 300-302: the [else] of the separator loop. *)
Definition lit_else (window : window_t) (chunk : list ascii)
  : signal string * isplit_gen :=
  (Yield (joined (chunk ++ window_items window)), IAtLitLast).

(** Lines 287-302, from the top of the [for] up to the next suspension.
    On line 294 [tuple(it)] exhausts [it], so the [continue] of line 295
    leaves the loop through its [else]. *)
Fixpoint lit_loop (sep : list ascii) (maxsplit : Z) (it : list ascii)
    (window : deque) (chunk : list ascii) (splitcount : Z)
  : signal string * isplit_gen :=
  match it with
  | [] => lit_else (WDeque window) chunk
  | char :: it' =>
      match lit_body sep maxsplit char window chunk splitcount with
      | LitContinue window' chunk' =>
          lit_loop sep maxsplit it' window' chunk' splitcount
      | LitYield window' chunk' =>
          (Yield (joined chunk'),
           IAtLitYield sep maxsplit it' window' chunk' splitcount)
      | LitRest window_tuple chunk' =>
          lit_else (WTuple (window_tuple ++ it')) chunk'
      end
  end.

(** Lines 252-255. *)
Definition check_maxsplit (maxsplit : value) : exn + Z :=
  match maxsplit with
  | VNone => inr (-1)%Z
  | VInt z => inr z
  | VBool b => inr (Z.b2z b)
  | _ => inl (TypeError "``maxpsplit``: an integer is required")
  end.

(** Lines 249-302 from the start of the body to the first suspension. *)
Definition isplit_start (text sep maxsplit : value) : signal string * isplit_gen :=
  match text with
  | VStr t =>
      match check_maxsplit maxsplit with
      | inl e => (Raise e, IFinished)
      | inr maxsplit =>
          let it := list_ascii_of_string t in
          match sep with
          | VNone => ws_loop maxsplit it [] 0%Z
          | VStr s =>
              match list_ascii_of_string s with
              | [] => (Raise (ValueError "``sep``: empty separator"), IFinished)
              | sep =>
                  lit_loop sep maxsplit it (deque_new (List.length sep + 1)) [] 0%Z
              end
          | _ =>
              (Raise (TypeError "``sep`` parameter must be a string or None"),
               IFinished)
          end
      end
  | _ => (Raise (TypeError "a string is expected"), IFinished)
  end.

(** [next(g)] for a frame of [isplit].  Resuming after line 271 runs
    lines 272-273, resuming after line 296 runs lines 297-299. *)
Definition isplit_next (g : isplit_gen) : signal string * isplit_gen :=
  match g with
  | ICreated text sep maxsplit => isplit_start text sep maxsplit
  | IAtWsYield maxsplit it _ splitcount =>
      ws_loop maxsplit it [] (splitcount + 1)%Z
  | IAtWsLast => (StopIteration, IFinished)
  | IAtLitYield sep maxsplit it window _ splitcount =>
      lit_loop sep maxsplit it (deque_clear window) [] (splitcount + 1)%Z
  | IAtLitLast => (StopIteration, IFinished)
  | IFinished => (StopIteration, IFinished)
  end.

(** Characters the frame has not read yet. *)
Definition isplit_pending (g : isplit_gen) : nat :=
  match g with
  | ICreated (VStr t) _ _ => String.length t
  | IAtWsYield _ it _ _ => List.length it
  | IAtLitYield _ _ it _ _ _ => List.length it
  | _ => 0
  end.

(** [list(g)], as the received fields and the exception, if any. *)
Definition isplit_list (g : isplit_gen) : option (list string * option exn) :=
  consume isplit_next (S (isplit_pending g)) (isplit_next g).

(** *** The separator scan, one iteration at a time

    The same loop as [lit_loop], as a transition on the variables of the
    frame, with the field an iteration yields.  There is no transition
    once [it] is exhausted. *)
Record lit_state : Type := {
  l_it : list ascii;
  l_window : window_t;
  l_chunk : list ascii;
  l_splitcount : Z
}.

Definition lit_init (text sep : list ascii) : lit_state :=
  {| l_it := text;
     l_window := WDeque (deque_new (List.length sep + 1));
     l_chunk := [];
     l_splitcount := 0%Z |}.

Definition lit_step (sep : list ascii) (maxsplit : Z) (st : lit_state)
  : option (option string * lit_state) :=
  match l_it st, l_window st with
  | char :: it', WDeque window =>
      Some
        match lit_body sep maxsplit char window (l_chunk st) (l_splitcount st) with
        | LitContinue window' chunk' =>
            (None,
             {| l_it := it'; l_window := WDeque window'; l_chunk := chunk';
                l_splitcount := l_splitcount st |})
        | LitYield window' chunk' =>
            (Some (joined chunk'),
             {| l_it := it'; l_window := WDeque (deque_clear window');
                l_chunk := []; l_splitcount := (l_splitcount st + 1)%Z |})
        | LitRest window_tuple chunk' =>
            (None,
             {| l_it := []; l_window := WTuple (window_tuple ++ it');
                l_chunk := chunk'; l_splitcount := l_splitcount st |})
        end
  | _, _ => None
  end.

(** [lit_reach sep maxsplit text fields st]: the scan of [text] reaches
    [st] after yielding [fields]. *)
Inductive lit_reach (sep : list ascii) (maxsplit : Z) (text : list ascii)
  : list string -> lit_state -> Prop :=
| reach_init : lit_reach sep maxsplit text [] (lit_init text sep)
| reach_step : forall fields st out st',
    lit_reach sep maxsplit text fields st ->
    lit_step sep maxsplit st = Some (out, st') ->
    lit_reach sep maxsplit text
      (fields ++ match out with Some f => [f] | None => [] end) st'.

(** ** flatten *)

(** [enforce_scalar]: what the callable returns (its truth value) or
    raises.  [None] stands for an argument that is not callable. *)
Definition predicate : Type := value -> exn + bool.

(** A suspended or finished frame of [flatten].  [protected_iterables]
    in a suspended frame is the tuple built on line 90.  The list
    [iterators] is used as a stack; its head is the last appended
    iterator. *)
Inductive flatten_gen : Type :=
| FCreated (thing : value) (protected_iterables : list pytype)
           (enforce_scalar : option predicate)
| FAtYield (protected_iterables : list pytype)
           (enforce_scalar : option predicate)
           (it : list value) (iterators : list (list value))
    (* suspended at the yield of line 108 *)
| FFinished.

(** The call itself. *)
Definition flatten (thing : value) (protected_iterables : list pytype)
    (enforce_scalar : option predicate) : flatten_gen :=
  FCreated thing protected_iterables enforce_scalar.

(** Lines 101-106, the body of the inner [try]: the iterator over
    [thing], or the exception raised. *)
Definition try_iter (protected_iterables : list pytype)
    (enforce_scalar : option predicate) (thing : value) : exn + list value :=
  let condition : exn + bool :=
    if isinstance thing protected_iterables then inr true
    else match enforce_scalar with
         | Some f => f thing
         | None => inr false
         end in
  match condition with
  | inl e => inl e
  | inr true => inl (ValueError "thing")
  | inr false => py_iter thing
  end.

(** Line 107: [except (TypeError, ValueError)]. *)
Definition caught (e : exn) : bool := is_TypeError e || is_ValueError e.

(** Lines 91-111, from the top of the [while] up to the next suspension.
    Each unit of fuel pays for one iteration. *)
Fixpoint flatten_loop (fuel : nat) (protected_iterables : list pytype)
    (enforce_scalar : option predicate)
    (it : list value) (iterators : list (list value))
  : option (signal value * flatten_gen) :=
  match fuel with
  | O => None
  | S fuel' =>
      match it with
      | [] =>
          match iterators with
          | [] => Some (StopIteration, FFinished)
          | it' :: iterators' =>
              flatten_loop fuel' protected_iterables enforce_scalar it' iterators'
          end
      | thing :: it' =>
          match try_iter protected_iterables enforce_scalar thing with
          | inl e =>
              if caught e then
                Some (Yield thing,
                      FAtYield protected_iterables enforce_scalar it' iterators)
              else Some (Raise e, FFinished)
          | inr sub =>
              flatten_loop fuel' protected_iterables enforce_scalar
                sub (it' :: iterators)
          end
      end
  end.

(** The number of iterations of the [while] that a value, an iterator
    and a stack of iterators can cost. *)
Fixpoint weight (v : value) : nat :=
  match v with
  | VList l => S (S (fold_right (fun x n => weight x + n) 0 l))
  | VTuple l => S (S (fold_right (fun x n => weight x + n) 0 l))
  | _ => 1
  end.

Definition frame_weight (it : list value) : nat :=
  S (fold_right (fun x n => weight x + n) 0 it).

Definition stack_weight (iterators : list (list value)) : nat :=
  fold_right (fun it n => frame_weight it + n) 0 iterators.

(** [next(g)] for a frame of [flatten]. *)
Definition flatten_next (g : flatten_gen) : option (signal value * flatten_gen) :=
  match g with
  | FCreated thing protected_iterables enforce_scalar =>
      match py_iter thing with
      | inl e => Some (Raise e, FFinished)
      | inr it =>
          flatten_loop (frame_weight it)
            (string_types ++ protected_iterables) enforce_scalar it []
      end
  | FAtYield protected_iterables enforce_scalar it iterators =>
      flatten_loop (frame_weight it + stack_weight iterators)
        protected_iterables enforce_scalar it iterators
  | FFinished => Some (StopIteration, FFinished)
  end.

(** Pulling from a frame of [flatten] until the sequence ends. *)
Fixpoint flatten_consume (fuel : nat) (g : flatten_gen)
  : option (list value * option exn) :=
  match fuel with
  | O => None
  | S fuel' =>
      match flatten_next g with
      | None => None
      | Some (StopIteration, _) => Some ([], None)
      | Some (Raise e, _) => Some ([], Some e)
      | Some (Yield v, g') =>
          match flatten_consume fuel' g' with
          | Some (l, e) => Some (v :: l, e)
          | None => None
          end
      end
  end.

Definition flatten_pending (g : flatten_gen) : nat :=
  match g with
  | FCreated thing _ _ =>
      match py_iter thing with
      | inr it => frame_weight it
      | inl _ => 0
      end
  | FAtYield _ _ it iterators => frame_weight it + stack_weight iterators
  | FFinished => 0
  end.

(** [list(g)], as the received values and the exception, if any. *)
Definition flatten_list (g : flatten_gen) : option (list value * option exn) :=
  flatten_consume (S (flatten_pending g)) g.

(** ** every_nth, even, odd

    These are plain functions: the checks run, and the iterator is
    built, when the function is called.  The result is the exception
    the call raises or the iterator it returns, an iterator being the
    list of the elements it will produce. *)

(** The integer an instance of [int] stands for; [bool] is a subclass
    of [int], with [True == 1] and [False == 0]. *)
Definition int_value (v : value) : option Z :=
  match v with
  | VInt z => Some z
  | VBool b => Some (Z.b2z b)
  | _ => None
  end.

(** The elements an [islice] object produces from the iterator [it]: it
    lets [skip] elements pass, produces the next one, and goes on with
    [step - 1] elements to let pass. *)
Fixpoint islice_from (it : list value) (skip step : nat) : list value :=
  match it with
  | [] => []
  | x :: it' =>
      match skip with
      | O => x :: islice_from it' (step - 1) step
      | S skip' => islice_from it' skip' step
      end
  end.

(** [itertools.islice(iterable, start, None, step)]: the arguments are
    checked, then [iter(iterable)] is taken.  Integers are unbounded
    here; the index range of the platform is not modelled. *)
Definition islice (iterable : value) (start step : Z) : exn + list value :=
  if (start <? 0)%Z then
    inl (ValueError "Indices for islice() must be None or an integer: 0 <= x <= sys.maxsize.")
  else if (step <? 1)%Z then
    inl (ValueError "Step for islice() must be a positive integer or None.")
  else
    match py_iter iterable with
    | inl e => inl e
    | inr it => inr (islice_from it (Z.to_nat start) (Z.to_nat step))
    end.

(** Lines 151-164.  Python's [%] takes the sign of the divisor, as
    [Z.modulo] does. *)
Definition every_nth (thing n shift : value) : exn + list value :=
  match int_value n with
  | None => inl (TypeError "n: an integer is required")
  | Some n =>
      match int_value shift with
      | None => inl (TypeError "shift: an integer is required")
      | Some shift =>
          if (n <? 1)%Z then
            inl (ValueError "n: a positive non-zero integer is required")
          else if (n =? 1)%Z then py_iter thing
          else islice thing ((shift - 1) mod n)%Z n
      end
  end.

(** Line 189. *)
Definition even (thing : value) : exn + list value := islice thing 1 2.

(** Line 213. *)
Definition odd (thing : value) : exn + list value := islice thing 0 2.

(** ** Reference semantics

    The eager operations the specification compares the generators
    with.  They are written from the specification, not from the
    generators. *)

(** *** [str.split] *)

(** [s] without its leading whitespace. *)
Fixpoint lstrip (s : list ascii) : list ascii :=
  match s with
  | [] => []
  | c :: s' => if isspace c then lstrip s' else s
  end.

(** The longest prefix of [s] without whitespace, and what follows it. *)
Fixpoint break_word (s : list ascii) : list ascii * list ascii :=
  match s with
  | [] => ([], [])
  | c :: s' =>
      if isspace c then ([], s)
      else let (w, r) := break_word s' in (c :: w, r)
  end.

(** Splitting at runs of whitespace, at most [n] times: the words are
    the maximal runs without whitespace; when no split is left, what
    remains after the leading whitespace is the last field. *)
Fixpoint split_whitespace (n : nat) (s : list ascii) : list (list ascii) :=
  match lstrip s with
  | [] => []
  | t =>
      match n with
      | O => [t]
      | S n' => let (w, r) := break_word t in w :: split_whitespace n' r
      end
  end.

(** [Some r] when [s] is [p] followed by [r]. *)
Fixpoint strip_prefix (p s : list ascii) : option (list ascii) :=
  match p, s with
  | [], _ => Some s
  | a :: p', b :: s' => if Ascii.eqb a b then strip_prefix p' s' else None
  | _ :: _, [] => None
  end.

(** The text before and after the leftmost occurrence of [sep] in [s]. *)
Fixpoint str_partition (sep s : list ascii) : option (list ascii * list ascii) :=
  match strip_prefix sep s with
  | Some r => Some ([], r)
  | None =>
      match s with
      | [] => None
      | c :: s' =>
          match str_partition sep s' with
          | Some (b, a) => Some (c :: b, a)
          | None => None
          end
      end
  end.

(** Splitting at the leftmost occurrences of [sep], at most [n] times. *)
Fixpoint split_sep (sep : list ascii) (n : nat) (s : list ascii)
  : list (list ascii) :=
  match n with
  | O => [s]
  | S n' =>
      match str_partition sep s with
      | None => [s]
      | Some (b, a) => b :: split_sep sep n' a
      end
  end.

(** [text.split(sep, maxsplit)] for [sep] none or not empty.  No limit
    ([maxsplit] none or negative) is a limit of as many splits as the
    text has characters, which no text can use up
    ([split_sep_enough], [split_whitespace_enough]). *)
Definition str_split (text : string) (sep : option string) (maxsplit : option Z)
  : list string :=
  let s := list_ascii_of_string text in
  let n :=
    match maxsplit with
    | None => List.length s
    | Some z => if (z <? 0)%Z then List.length s else Z.to_nat z
    end in
  map joined
    match sep with
    | None => split_whitespace n s
    | Some d => split_sep (list_ascii_of_string d) n s
    end.

(** Arguments of [isplit] as Python values. *)
Definition opt_str (o : option string) : value :=
  match o with None => VNone | Some s => VStr s end.

Definition opt_int (o : option Z) : value :=
  match o with None => VNone | Some z => VInt z end.

(** *** Depth-first reading of a nested structure *)

(** The four rules of the specification for a value that is emitted
    as it is: text, a protected type, the predicate, not iterable. *)
Definition atomic (protected_types : list pytype)
    (protect_predicate : option (value -> bool)) (v : value) : bool :=
  isinstance v string_types
  || isinstance v protected_types
  || match protect_predicate with Some p => p v | None => false end
  || match py_iter v with inl _ => true | inr _ => false end.

(** The atomic values of [v], left to right, depth first. *)
Fixpoint leaves (protected_types : list pytype)
    (protect_predicate : option (value -> bool)) (v : value) : list value :=
  if atomic protected_types protect_predicate v then [v]
  else
    match v with
    | VList l => flat_map (leaves protected_types protect_predicate) l
    | VTuple l => flat_map (leaves protected_types protect_predicate) l
    | _ => [v]
    end.

(** A predicate that never raises, as an [enforce_scalar] argument. *)
Definition returns (p : value -> bool) : predicate := fun v => inr (p v).

(** *** Depth-first reading with a predicate that may raise

    The values read up to the first exception that is not caught, and
    that exception. *)
Definition then_ (t u : list value * option exn) : list value * option exn :=
  match t with
  | (l, None) => (l ++ fst u, snd u)
  | (l, Some e) => (l, Some e)
  end.

Fixpoint read (protected_iterables : list pytype)
    (enforce_scalar : option predicate) (v : value) : list value * option exn :=
  match try_iter protected_iterables enforce_scalar v with
  | inl e => if caught e then ([v], None) else ([], Some e)
  | inr _ =>
      match v with
      | VList l =>
          fold_right
            (fun x t => then_ (read protected_iterables enforce_scalar x) t)
            ([], None) l
      | VTuple l =>
          fold_right
            (fun x t => then_ (read protected_iterables enforce_scalar x) t)
            ([], None) l
      | _ => ([], None)   (* not reached: text is protected, the rest is not iterable *)
      end
  end.

Definition read_seq (protected_iterables : list pytype)
    (enforce_scalar : option predicate) (it : list value)
  : list value * option exn :=
  fold_right (fun x t => then_ (read protected_iterables enforce_scalar x) t)
    ([], None) it.

Definition read_stack (protected_iterables : list pytype)
    (enforce_scalar : option predicate)
    (it : list value) (iterators : list (list value))
  : list value * option exn :=
  fold_right
    (fun i t => then_ (read_seq protected_iterables enforce_scalar i) t)
    ([], None) (it :: iterators).

(** ** Validation, as the specification lists it *)

(** How a pull ended, as far as validation is concerned. *)
Inductive outcome : Type := NoError | IsTypeError | IsValueError | IsOtherError.

Definition raised {A G : Type} (r : signal A * G) : outcome :=
  match fst r with
  | Raise (TypeError _) => IsTypeError
  | Raise (ValueError _) => IsValueError
  | Raise (OtherError _) => IsOtherError
  | _ => NoError
  end.

Definition is_none (v : value) : bool :=
  match v with VNone => true | _ => false end.

Definition is_text (v : value) : bool := isinstance v string_types.

Definition is_integer (v : value) : bool := isinstance v integer_types.

Definition is_empty_text (v : value) : bool :=
  match v with VStr EmptyString => true | _ => false end.

(** The validation errors of the specification, in the order it lists
    them: the text, the limit, the type of the separator, the empty
    separator. *)
Definition validation (text sep maxsplit : value) : outcome :=
  if negb (is_text text) then IsTypeError
  else if negb (is_none maxsplit) && negb (is_integer maxsplit) then IsTypeError
  else if negb (is_none sep) && negb (is_text sep) then IsTypeError
  else if is_empty_text sep then IsValueError
  else NoError.

(** ** Invariants of the loops *)

(** A chunk of the whitespace loop holds no whitespace. *)
Definition nospace (l : list ascii) : Prop :=
  Forall (fun c => isspace c = false) l.

(** [n] is the number of splits the loop may still make: what is left of
    a limit, or at least the number of pending characters without one. *)
Definition splits_left (maxsplit splitcount : Z) (n pending : nat) : Prop :=
  (0 <= splitcount)%Z /\
  (((splitcount <= maxsplit)%Z /\ n = Z.to_nat (maxsplit - splitcount)) \/
   ((maxsplit < 0)%Z /\ pending <= n)).

(** The text the scan has accounted for in yielded fields. *)
Definition fields_text (sep : list ascii) (fields : list string) : list ascii :=
  flat_map (fun f => list_ascii_of_string f ++ sep) fields.

(** What holds of the variables of the scan in every state it reaches:
    the deque has room for the separator and one more character and
    holds no more than the separator's length between two iterations;
    once [window] is the tuple of line 294 the input is exhausted; and
    the fields yielded so far, each followed by the separator, then
    [chunk], the window and the rest of the input make up the text. *)
Definition lit_inv (sep text : list ascii) (fields : list string)
    (st : lit_state) : Prop :=
  match l_window st with
  | WDeque d =>
      maxlen d = List.length sep + 1 /\ List.length (items d) <= List.length sep
  | WTuple _ => l_it st = []
  end
  /\ fields_text sep fields ++ l_chunk st ++ window_items (l_window st) ++ l_it st
     = text.

(** Text is protected whatever the caller protects. *)
Definition protects_text (protected_iterables : list pytype) : Prop :=
  forall s, isinstance (VStr s) protected_iterables = true.

(** What [next] must give when [t] is still to be read, with [w]
    bounding the weight of the frame it leaves. *)
Definition next_reads (p : list pytype) (f : option predicate)
    (t : list value * option exn) (r : signal value * flatten_gen) (w : nat)
  : Prop :=
  match t with
  | ([], None) => r = (StopIteration, FFinished)
  | ([], Some e) => r = (Raise e, FFinished)
  | (v :: vs, oe) =>
      exists it' iterators',
        r = (Yield v, FAtYield p f it' iterators')
        /\ read_stack p f it' iterators' = (vs, oe)
        /\ frame_weight it' + stack_weight iterators' < w
  end.

(** ** Notions the further properties are stated with *)

(** [a], [b] taken in turn, starting with [a]. *)
Fixpoint interleave (a b : list value) : list value :=
  match a with
  | [] => b
  | x :: a' =>
      x :: match b with
           | [] => a'
           | y :: b' => y :: interleave a' b'
           end
  end.

(** [sep.join(fields)] *)
Fixpoint str_join (sep : string) (fields : list string) : string :=
  match fields with
  | [] => EmptyString
  | f :: rest =>
      match rest with
      | [] => f
      | _ :: _ => (f ++ sep ++ str_join sep rest)%string
      end
  end.

(** [sep in f] *)
Definition occurs_in (sep f : string) : Prop :=
  exists p q, f = (p ++ sep ++ q)%string.

(** The same on lists of characters. *)
Definition contains (sep s : list ascii) : Prop :=
  exists p q, s = p ++ sep ++ q.



(** * Properties *)

(** ** Lists of characters *)

Lemma list_ascii_eqb_eq : forall a b, list_ascii_eqb a b = true <-> a = b.
Proof.
  induction a as [|x a IH]; destruct b as [|y b]; simpl; split;
    try congruence; try reflexivity.
  - rewrite andb_true_iff, Ascii.eqb_eq, IH. intros [-> ->]. reflexivity.
  - intros H. injection H as -> ->.
    rewrite Ascii.eqb_refl. simpl. apply IH. reflexivity.
Qed.

Lemma list_ascii_eqb_refl : forall a, list_ascii_eqb a a = true.
Proof. intros a. apply list_ascii_eqb_eq. reflexivity. Qed.

Lemma list_ascii_eqb_neq : forall a b, list_ascii_eqb a b = false <-> a <> b.
Proof.
  intros a b. rewrite <- list_ascii_eqb_eq.
  destruct (list_ascii_eqb a b); split; congruence.
Qed.

Lemma nonempty_app : forall (A : Type) (l : list A) x r,
  nonempty ((l ++ [x]) ++ r) = true.
Proof. intros A [|y l] x r; reflexivity. Qed.

Lemma consume_stop : forall fuel g,
  consume isplit_next fuel (StopIteration, g) = Some ([], None).
Proof. intros [|fuel] g; reflexivity. Qed.

Lemma consume_raise : forall fuel e g,
  consume isplit_next fuel (Raise e, g) = Some ([], Some e).
Proof. intros [|fuel] e g; reflexivity. Qed.

Lemma consume_last : forall fuel f g,
  isplit_next g = (StopIteration, IFinished) ->
  consume isplit_next (S fuel) (Yield f, g) = Some ([f], None).
Proof. intros fuel f g H. simpl. rewrite H. destruct fuel; reflexivity. Qed.

(** ** Whitespace mode against [split_whitespace] *)

Lemma lstrip_nospace : forall chunk r,
  chunk <> [] -> nospace chunk -> lstrip (chunk ++ r) = chunk ++ r.
Proof.
  intros [|c chunk] r Hne Hns; [congruence|].
  inversion Hns as [|? ? Hc _]; subst. simpl. rewrite Hc. reflexivity.
Qed.

Lemma break_word_nospace : forall chunk r,
  nospace chunk ->
  break_word (chunk ++ r) = (chunk ++ fst (break_word r), snd (break_word r)).
Proof.
  induction chunk as [|c chunk IH]; intros r Hns; simpl.
  - destruct (break_word r); reflexivity.
  - inversion Hns as [|? ? Hc Hns']; subst. rewrite Hc, IH by assumption.
    reflexivity.
Qed.

Lemma break_word_space : forall c s,
  isspace c = true -> break_word (c :: s) = ([], c :: s).
Proof. intros c s H. simpl. rewrite H. reflexivity. Qed.

Lemma split_whitespace_space : forall n c s,
  isspace c = true -> split_whitespace n (c :: s) = split_whitespace n s.
Proof. intros [|n] c s H; simpl; rewrite H; reflexivity. Qed.

Lemma split_whitespace_nil : forall n, split_whitespace n [] = [].
Proof. intros [|n]; reflexivity. Qed.

Lemma split_whitespace_0 : forall t,
  lstrip t = t -> t <> [] -> split_whitespace 0 t = [t].
Proof.
  intros t H Hne. simpl. rewrite H. destruct t; [congruence | reflexivity].
Qed.

Lemma split_whitespace_S : forall n t,
  lstrip t = t -> t <> [] ->
  split_whitespace (S n) t =
  fst (break_word t) :: split_whitespace n (snd (break_word t)).
Proof.
  intros n t H Hne.
  change (split_whitespace (S n) t)
    with (match lstrip t with
          | [] => []
          | u => let (w, r') := break_word u in w :: split_whitespace n r'
          end).
  rewrite H. destruct t as [|c t]; [congruence|].
  destruct (break_word (c :: t)). reflexivity.
Qed.

Lemma app_not_nil : forall (chunk r : list ascii), chunk <> [] -> chunk ++ r <> [].
Proof. intros [|c chunk] r H; [congruence | discriminate]. Qed.

(** A last field that runs to the end of the text. *)
Lemma split_whitespace_zero : forall chunk r,
  chunk <> [] -> nospace chunk ->
  split_whitespace 0 (chunk ++ r) = [chunk ++ r].
Proof.
  intros chunk r Hne Hns. apply split_whitespace_0.
  - apply lstrip_nospace; assumption.
  - apply app_not_nil; assumption.
Qed.

(** A word followed by whitespace. *)
Lemma split_whitespace_word : forall n chunk c r,
  chunk <> [] -> nospace chunk -> isspace c = true ->
  split_whitespace (S n) (chunk ++ c :: r) = chunk :: split_whitespace n r.
Proof.
  intros n chunk c r Hne Hns Hc.
  rewrite split_whitespace_S
    by (apply lstrip_nospace || apply app_not_nil; assumption).
  rewrite break_word_nospace, break_word_space by assumption. simpl.
  rewrite app_nil_r, split_whitespace_space by assumption. reflexivity.
Qed.

(** A word that ends the text. *)
Lemma split_whitespace_end : forall n chunk,
  chunk <> [] -> nospace chunk -> split_whitespace n chunk = [chunk].
Proof.
  intros n chunk Hne Hns.
  assert (Hl : lstrip chunk = chunk).
  { rewrite <- (app_nil_r chunk). apply lstrip_nospace; assumption. }
  destruct n as [|n].
  - apply split_whitespace_0; assumption.
  - rewrite split_whitespace_S by assumption.
    rewrite <- (app_nil_r chunk) at 1 2.
    rewrite break_word_nospace by assumption. simpl.
    rewrite app_nil_r, split_whitespace_nil. reflexivity.
Qed.

Lemma splits_left_weaken : forall maxsplit splitcount n p q,
  q <= p -> splits_left maxsplit splitcount n p ->
  splits_left maxsplit splitcount n q.
Proof. unfold splits_left. intros. lia. Qed.

Lemma splits_left_zero : forall {maxsplit splitcount n p},
  splits_left maxsplit splitcount n p ->
  (splitcount =? maxsplit)%Z = true -> n = 0.
Proof. unfold splits_left. intros * H E. apply Z.eqb_eq in E. lia. Qed.

Lemma splits_left_succ : forall {maxsplit splitcount n p} q,
  splits_left maxsplit splitcount n p ->
  (splitcount =? maxsplit)%Z = false -> 0 < p -> q < p ->
  exists n', n = S n' /\ splits_left maxsplit (splitcount + 1) n' q.
Proof.
  unfold splits_left. intros * H E Hp Hq. apply Z.eqb_neq in E.
  exists (pred n). lia.
Qed.

Lemma ws_loop_ref : forall maxsplit it chunk splitcount n fuel,
  nospace chunk ->
  splits_left maxsplit splitcount n (List.length (chunk ++ it)) ->
  List.length it < fuel ->
  consume isplit_next fuel (ws_loop maxsplit it chunk splitcount) =
  Some (map joined (split_whitespace n (chunk ++ it)), None).
Proof.
  induction it as [|c it IH]; intros chunk splitcount n fuel Hns Hn Hfuel.
  - rewrite app_nil_r. simpl. unfold ws_else.
    destruct chunk as [|c0 chunk]; simpl nonempty; cbv iota.
    + rewrite split_whitespace_nil. apply consume_stop.
    + destruct fuel as [|fuel]; [inversion Hfuel|].
      rewrite consume_last by reflexivity.
      rewrite split_whitespace_end by (assumption || congruence). reflexivity.
  - simpl ws_loop. destruct (isspace c) eqn:Hc; simpl negb; cbv iota.
    + destruct chunk as [|c0 chunk]; simpl nonempty; cbv iota.
      * simpl app. rewrite split_whitespace_space by assumption.
        apply IH; [assumption | | simpl in Hfuel; lia].
        eapply splits_left_weaken; [|exact Hn]. simpl. lia.
      * destruct (splitcount =? maxsplit)%Z eqn:E.
        -- rewrite (splits_left_zero Hn E).
           unfold ws_else. rewrite nonempty_app.
           destruct fuel as [|fuel]; [inversion Hfuel|].
           rewrite consume_last by reflexivity.
           rewrite <- app_assoc. simpl app.
           change (c0 :: chunk ++ c :: it) with ((c0 :: chunk) ++ c :: it).
           rewrite split_whitespace_zero by (assumption || congruence).
           reflexivity.
        -- destruct (splits_left_succ (List.length it) Hn E) as (n' & -> & Hn').
           { simpl. lia. }
           { rewrite length_app. simpl. lia. }
           destruct fuel as [|fuel]; [inversion Hfuel|].
           rewrite split_whitespace_word by (assumption || congruence).
           simpl consume.
           rewrite (IH [] (splitcount + 1)%Z n' fuel);
             [reflexivity | constructor | exact Hn' | simpl in Hfuel; lia].
    + replace (chunk ++ c :: it) with ((chunk ++ [c]) ++ it)
        by (rewrite <- app_assoc; reflexivity).
      apply IH.
      * apply Forall_app. split; [assumption|]. constructor; [assumption|constructor].
      * rewrite <- app_assoc. exact Hn.
      * simpl in Hfuel. lia.
Qed.

(** ** Separator mode against [split_sep] *)

Lemma strip_prefix_app : forall sep a, strip_prefix sep (sep ++ a) = Some a.
Proof.
  induction sep as [|x sep IH]; intros a; simpl; [reflexivity|].
  rewrite Ascii.eqb_refl. apply IH.
Qed.

Lemma strip_prefix_short : forall sep s,
  List.length s < List.length sep -> strip_prefix sep s = None.
Proof.
  induction sep as [|x sep IH]; intros [|y s] H; simpl in *; try lia; auto.
  destruct (Ascii.eqb x y); [apply IH; lia | reflexivity].
Qed.

Lemma strip_prefix_differ : forall sep w r,
  List.length w = List.length sep -> w <> sep ->
  strip_prefix sep (w ++ r) = None.
Proof.
  induction sep as [|x sep IH]; intros [|y w] r Hlen Hne; simpl in *;
    try congruence; try lia.
  destruct (Ascii.eqb x y) eqn:E; [|reflexivity].
  apply Ascii.eqb_eq in E. subst y. apply IH; [lia | congruence].
Qed.

Lemma str_partition_eq : forall sep s,
  str_partition sep s =
  match strip_prefix sep s with
  | Some r => Some ([], r)
  | None =>
      match s with
      | [] => None
      | c :: s' =>
          match str_partition sep s' with
          | Some (b, a) => Some (c :: b, a)
          | None => None
          end
      end
  end.
Proof. intros sep [|c s]; reflexivity. Qed.

(** The leftmost occurrence: [sep] starts after [b] and nowhere before. *)
Lemma str_partition_found : forall sep b r a,
  strip_prefix sep r = Some a ->
  (forall k, k < List.length b -> strip_prefix sep (skipn k (b ++ r)) = None) ->
  str_partition sep (b ++ r) = Some (b, a).
Proof.
  induction b as [|c b IH]; intros r a Hr Hb; rewrite str_partition_eq.
  - simpl. rewrite Hr. reflexivity.
  - pose proof (Hb 0 ltac:(simpl; lia)) as H0. simpl in H0.
    simpl app. rewrite H0.
    rewrite (IH r a Hr); [reflexivity|].
    intros k Hk. apply (Hb (S k)). simpl. lia.
Qed.

Lemma str_partition_none : forall sep s,
  (forall k, strip_prefix sep (skipn k s) = None) ->
  str_partition sep s = None.
Proof.
  induction s as [|c s IH]; intros H; rewrite str_partition_eq.
  - pose proof (H 0) as H0. simpl skipn in H0. rewrite H0. reflexivity.
  - pose proof (H 0) as H0. simpl skipn in H0. rewrite H0.
    rewrite IH; [reflexivity|].
    intros k. apply (H (S k)).
Qed.

Lemma split_sep_none : forall sep n s,
  str_partition sep s = None -> split_sep sep n s = [s].
Proof. intros sep [|n] s H; simpl; [|rewrite H]; reflexivity. Qed.

(** One iteration of the scan: the window takes [char] and, when it
    held as many characters as the separator, gives its oldest to
    [chunk]. *)
Lemma lit_body_eq : forall sep maxsplit char window chunk splitcount,
  maxlen window = List.length sep + 1 ->
  List.length (items window) <= List.length sep ->
  exists window' chunk',
    maxlen window' = maxlen window /\
    chunk' ++ items window' = chunk ++ items window ++ [char] /\
    (List.length (items window) = List.length sep ->
       List.length (items window') = List.length sep /\
       List.length chunk' = S (List.length chunk)) /\
    (List.length (items window) < List.length sep ->
       items window' = items window ++ [char] /\ chunk' = chunk) /\
    lit_body sep maxsplit char window chunk splitcount =
      if list_ascii_eqb (items window') sep then
        if (splitcount =? maxsplit)%Z then LitRest (items window') chunk'
        else LitYield window' chunk'
      else LitContinue window' chunk'.
Proof.
  intros sep maxsplit char [ml w] chunk splitcount Hml Hlen. simpl in *.
  unfold lit_body, deque_append. simpl.
  replace (ml =? 0) with false by (symmetry; apply Nat.eqb_neq; lia).
  replace (List.length w =? ml) with false by (symmetry; apply Nat.eqb_neq; lia).
  simpl. rewrite length_app. simpl.
  destruct (List.length w + 1 =? ml) eqn:E.
  - apply Nat.eqb_eq in E.
    unfold deque_popleft. simpl.
    destruct (w ++ [char]) as [|x w1] eqn:Ew.
    { apply app_eq_nil in Ew. destruct Ew; discriminate. }
    assert (Hw1 : S (List.length w1) = List.length w + 1).
    { apply (f_equal (@List.length ascii)) in Ew.
      rewrite length_app in Ew. simpl in Ew. lia. }
    exists {| maxlen := ml; items := w1 |}, (chunk ++ [x]). simpl.
    repeat split; try lia.
    + rewrite <- app_assoc. reflexivity.
    + rewrite length_app. simpl. lia.
  - apply Nat.eqb_neq in E.
    exists {| maxlen := ml; items := w ++ [char] |}, chunk. simpl.
    repeat split; try lia.
Qed.

Lemma skipn_app_length : forall (b r : list ascii),
  skipn (List.length b) (b ++ r) = r.
Proof. induction b as [|c b IH]; intros r; simpl; auto. Qed.

Lemma lit_loop_ref : forall sep maxsplit,
  sep <> [] ->
  forall it window chunk splitcount n fuel,
  maxlen window = List.length sep + 1 ->
  List.length (items window) <= List.length sep ->
  (List.length (items window) < List.length sep -> chunk = []) ->
  (forall k, k + List.length sep <= List.length chunk + List.length (items window) ->
     strip_prefix sep (skipn k (chunk ++ items window ++ it)) = None) ->
  splits_left maxsplit splitcount n (List.length (chunk ++ items window ++ it)) ->
  List.length it < fuel ->
  consume isplit_next fuel (lit_loop sep maxsplit it window chunk splitcount) =
  Some (map joined (split_sep sep n (chunk ++ items window ++ it)), None).
Proof.
  intros sep maxsplit Hsep.
  assert (Hm : 0 < List.length sep) by (destruct sep; [congruence | simpl; lia]).
  induction it as [|c it IH];
    intros window chunk splitcount n fuel Hml Hlen Hchunk Hocc Hn Hfuel.
  - (* end of input *)
    rewrite app_nil_r in *. simpl lit_loop. unfold lit_else. simpl window_items.
    destruct fuel as [|fuel]; [inversion Hfuel|].
    rewrite consume_last by reflexivity.
    rewrite split_sep_none; [reflexivity|].
    apply str_partition_none. intros k.
    destruct (le_lt_dec (k + List.length sep) (List.length (chunk ++ items window)))
      as [Hk|Hk].
    + apply Hocc. rewrite length_app in Hk. exact Hk.
    + apply strip_prefix_short. rewrite length_skipn. lia.
  - simpl lit_loop.
    destruct (lit_body_eq sep maxsplit c window chunk splitcount Hml Hlen)
      as (window' & chunk' & Hml' & Happ & Hfull & Hpart & ->).
    assert (HT : chunk ++ items window ++ c :: it = chunk' ++ items window' ++ it).
    { rewrite (app_assoc chunk'), Happ, <- !app_assoc. reflexivity. }
    assert (Hlen' : List.length chunk' + List.length (items window')
                    = S (List.length chunk + List.length (items window))).
    { apply (f_equal (@List.length ascii)) in Happ.
      rewrite !length_app in Happ. simpl in Happ. lia. }
    assert (Hw' : List.length (items window') <= List.length sep).
    { destruct (Nat.eq_dec (List.length (items window)) (List.length sep)) as [E|E].
      - apply Hfull in E. lia.
      - destruct Hpart as [-> _]; [lia|]. rewrite length_app. simpl. lia. }
    assert (Hchunk' : List.length (items window') < List.length sep -> chunk' = []).
    { intros H.
      destruct (Nat.eq_dec (List.length (items window)) (List.length sep)) as [E|E].
      - apply Hfull in E. lia.
      - destruct Hpart as [_ ->]; [lia|]. apply Hchunk. lia. }
    rewrite HT in *.
    destruct (list_ascii_eqb (items window') sep) eqn:Eq.
    + (* the window holds the separator *)
      apply list_ascii_eqb_eq in Eq.
      assert (Hfound : str_partition sep (chunk' ++ items window' ++ it)
                       = Some (chunk', it)).
      { apply str_partition_found.
        - rewrite Eq. apply strip_prefix_app.
        - intros k Hk. apply Hocc. rewrite Eq in Hlen'. lia. }
      destruct (splitcount =? maxsplit)%Z eqn:E.
      * rewrite (splits_left_zero Hn E). unfold lit_else. simpl window_items.
        destruct fuel as [|fuel]; [inversion Hfuel|].
        rewrite consume_last by reflexivity. reflexivity.
      * destruct (splits_left_succ (List.length it) Hn E) as (n' & -> & Hn').
        { rewrite !length_app. rewrite Eq. lia. }
        { rewrite !length_app. rewrite Eq. lia. }
        destruct fuel as [|fuel]; [inversion Hfuel|].
        simpl split_sep. rewrite Hfound. simpl consume.
        rewrite (IH (deque_clear window') [] (splitcount + 1)%Z n' fuel);
          simpl; try lia; auto.
        simpl in Hfuel. lia.
    + (* no match yet *)
      apply list_ascii_eqb_neq in Eq.
      apply IH; try assumption; try (simpl in Hfuel; lia).
      intros k Hk.
      destruct (le_lt_dec (k + List.length sep)
                  (List.length chunk + List.length (items window))) as [Hk'|Hk'].
      * apply Hocc. exact Hk'.
      * destruct (Nat.eq_dec (List.length (items window')) (List.length sep)) as [E|E].
        -- assert (k = List.length chunk') by lia. subst k.
           rewrite skipn_app_length. apply strip_prefix_differ; assumption.
        -- rewrite Hchunk' in * by lia. simpl in *. lia.
Qed.

(** ** [isplit] against [str.split] *)

Lemma length_list_ascii_of_string : forall s,
  List.length (list_ascii_of_string s) = String.length s.
Proof. induction s as [|c s IH]; simpl; congruence. Qed.

Lemma list_ascii_of_string_nil : forall s,
  list_ascii_of_string s = [] -> s = EmptyString.
Proof. intros [|c s] H; [reflexivity | discriminate]. Qed.

(** The limit [str_split] works with, for the [maxsplit] of the frame. *)
Lemma splits_left_start : forall maxsplit z (s : list ascii),
  check_maxsplit (opt_int maxsplit) = inr z ->
  splits_left z 0
    match maxsplit with
    | None => List.length s
    | Some z' => if (z' <? 0)%Z then List.length s else Z.to_nat z'
    end
    (List.length s).
Proof.
  unfold splits_left. intros [z'|] z s H; simpl in H; injection H as <-.
  - destruct (z' <? 0)%Z eqn:E.
    + apply Z.ltb_lt in E. lia.
    + apply Z.ltb_ge in E. lia.
  - lia.
Qed.

Lemma check_maxsplit_opt_int : forall maxsplit,
  exists z, check_maxsplit (opt_int maxsplit) = inr z.
Proof. intros [z|]; simpl; eauto. Qed.

(** Every field of a finite text arrives, and the fields are those of
    [str.split]. *)
Lemma isplit_list_str_split : forall text sep maxsplit,
  sep <> Some EmptyString ->
  isplit_list (isplit (VStr text) (opt_str sep) (opt_int maxsplit)) =
  Some (str_split text sep maxsplit, None).
Proof.
  intros text sep maxsplit Hsep.
  unfold isplit_list, isplit, str_split. simpl isplit_pending.
  simpl isplit_next. unfold isplit_start.
  destruct (check_maxsplit_opt_int maxsplit) as [z Hz]. rewrite Hz.
  pose proof (splits_left_start maxsplit z (list_ascii_of_string text) Hz) as Hn.
  destruct sep as [d|]; simpl opt_str; cbv iota.
  - destruct (list_ascii_of_string d) as [|a l] eqn:Ed.
    { apply list_ascii_of_string_nil in Ed. congruence. }
    apply (lit_loop_ref (a :: l) z ltac:(discriminate)
             (list_ascii_of_string text)
             (deque_new (List.length (a :: l) + 1)) []);
      simpl; try lia; auto.
    rewrite length_list_ascii_of_string. lia.
  - apply (ws_loop_ref z (list_ascii_of_string text) []);
      simpl; auto.
    + constructor.
    + rewrite length_list_ascii_of_string. lia.
Qed.

Lemma split_sep_not_nil : forall sep n s, split_sep sep n s <> [].
Proof.
  intros sep [|n] s; simpl; [discriminate|].
  destruct (str_partition sep s) as [[b a]|]; discriminate.
Qed.

Lemma lstrip_head : forall s c t, lstrip s = c :: t -> isspace c = false.
Proof.
  induction s as [|x s IH]; intros c t H; simpl in H; [discriminate|].
  destruct (isspace x) eqn:E; [eauto | congruence].
Qed.

Lemma break_word_head : forall c t,
  isspace c = false -> fst (break_word (c :: t)) <> [].
Proof.
  intros c t H. simpl. rewrite H. destruct (break_word t). discriminate.
Qed.

Lemma split_whitespace_eq : forall n s,
  split_whitespace n s =
  match lstrip s with
  | [] => []
  | c :: t =>
      match n with
      | O => [c :: t]
      | S n' =>
          fst (break_word (c :: t)) :: split_whitespace n' (snd (break_word (c :: t)))
      end
  end.
Proof.
  intros [|n] s.
  - simpl. destruct (lstrip s); reflexivity.
  - change (split_whitespace (S n) s)
      with (match lstrip s with
            | [] => []
            | u => let (w, r') := break_word u in w :: split_whitespace n r'
            end).
    destruct (lstrip s) as [|c t]; [reflexivity|].
    destruct (break_word (c :: t)). reflexivity.
Qed.

Lemma split_whitespace_fields : forall n s,
  Forall (fun f => f <> []) (split_whitespace n s).
Proof.
  induction n as [|n IH]; intros s; rewrite split_whitespace_eq;
    destruct (lstrip s) as [|c t] eqn:E; try constructor.
  - discriminate.
  - constructor.
  - apply break_word_head. apply (lstrip_head s c t E).
  - apply IH.
Qed.

Lemma joined_nil : forall l, joined l = EmptyString -> l = [].
Proof. intros [|c l] H; [reflexivity | discriminate]. Qed.

(** ** The claims on [isplit] *)

(** C1. For every text, every separator that is none or a text that is
    not empty, and every limit that is none or an integer, the fields
    [isplit] produces are, field for field, those of [str.split] with
    that separator (runs of whitespace for none) and at most that many
    splits; the listed examples come out as listed. *)
Theorem isplit_equals_str_split : forall text sep maxsplit,
  sep <> Some EmptyString ->
  isplit_list (isplit (VStr text) (opt_str sep) (opt_int maxsplit)) =
    Some (str_split text sep maxsplit, None)
  /\ isplit_list (isplit (VStr "aaaaa") (VStr "aa") VNone) =
       Some ([EmptyString; EmptyString; "a"], None)
  /\ isplit_list (isplit (VStr "aaaaa") (VStr "aa") (VInt 1)) =
       Some ([EmptyString; "aaa"], None)
  /\ isplit_list (isplit (VStr "lorem ipsum dolor sit amet") VNone VNone) =
       Some (["lorem"; "ipsum"; "dolor"; "sit"; "amet"], None)
  /\ isplit_list
       (isplit (VStr "Programming Language :: Python :: 2.7") (VStr "::") VNone) =
       Some (["Programming Language "; " Python "; " 2.7"], None).
Proof.
  intros text sep maxsplit Hsep. split.
  - apply isplit_list_str_split. exact Hsep.
  - repeat split; vm_compute; reflexivity.
Qed.

Lemma isplit_equals_str_split_witness :
  Some "aa" <> Some EmptyString /\
  isplit_list (isplit (VStr "aaa") (opt_str (Some "aa")) (opt_int (Some 1%Z))) =
  Some (str_split "aaa" (Some "aa") (Some 1%Z), None).
Proof.
  split; [discriminate|].
  apply (isplit_equals_str_split "aaa" (Some "aa") (Some 1%Z)).
  discriminate.
Defined.

(** C4. At the end of the input the separator loop always yields a last
    field, [chunk] followed by what the window still holds, even when
    that is the empty text: the sequence of a separator run is never
    empty, and [isplit('', D)] is one empty field.  The whitespace loop
    yields a last field only when [chunk] is not empty: no field of a
    whitespace run is empty, and [isplit('')] is the empty sequence. *)
Theorem isplit_last_field :
  (forall sep maxsplit window chunk splitcount,
     lit_loop sep maxsplit [] window chunk splitcount =
       (Yield (joined (chunk ++ items window)), IAtLitLast))
  /\ isplit_next IAtLitLast = (StopIteration, IFinished)
  /\ (forall text c d maxsplit,
        exists fields last,
          isplit_list (isplit (VStr text) (VStr (String c d)) (opt_int maxsplit))
          = Some (fields ++ [last], None))
  /\ (forall c d maxsplit,
        isplit_list (isplit (VStr EmptyString) (VStr (String c d)) (opt_int maxsplit))
        = Some ([EmptyString], None))
  /\ (forall maxsplit chunk splitcount,
        ws_loop maxsplit [] chunk splitcount =
          if nonempty chunk then (Yield (joined chunk), IAtWsLast)
          else (StopIteration, IFinished))
  /\ isplit_next IAtWsLast = (StopIteration, IFinished)
  /\ (forall text maxsplit,
        exists fields,
          isplit_list (isplit (VStr text) VNone (opt_int maxsplit))
          = Some (fields, None)
          /\ Forall (fun f => f <> EmptyString) fields)
  /\ (forall maxsplit,
        isplit_list (isplit (VStr EmptyString) VNone (opt_int maxsplit))
        = Some ([], None)).
Proof.
  repeat apply conj; try reflexivity.
  - intros text c d maxsplit.
    pose proof (isplit_list_str_split text (Some (String c d)) maxsplit
                  ltac:(discriminate)) as H.
    simpl opt_str in H. rewrite H. unfold str_split.
    match goal with
    | |- context [split_sep ?s ?n ?t] =>
        pose proof (split_sep_not_nil s n t) as Hne;
        destruct (split_sep s n t) as [|f l] using rev_ind
    end; [congruence|].
    rewrite map_app. simpl. eauto.
  - intros c d maxsplit.
    pose proof (isplit_list_str_split EmptyString (Some (String c d)) maxsplit
                  ltac:(discriminate)) as H.
    simpl opt_str in H. rewrite H. unfold str_split.
    assert (E : forall n, split_sep (list_ascii_of_string (String c d)) n [] = [[]]).
    { intros [|n]; reflexivity. }
    simpl list_ascii_of_string at 1 2 3. rewrite E. reflexivity.
  - intros text maxsplit.
    pose proof (isplit_list_str_split text None maxsplit ltac:(discriminate)) as H.
    simpl opt_str in H. rewrite H. eexists. split; [reflexivity|].
    unfold str_split. apply Forall_map.
    eapply Forall_impl; [|apply split_whitespace_fields].
    intros f Hf E. apply Hf. apply joined_nil. exact E.
  - intros maxsplit.
    pose proof (isplit_list_str_split EmptyString None maxsplit
                  ltac:(discriminate)) as H.
    simpl opt_str in H. rewrite H. unfold str_split. simpl list_ascii_of_string.
    rewrite split_whitespace_nil. reflexivity.
Qed.



Lemma ws_loop_raised : forall maxsplit it chunk splitcount,
  raised (ws_loop maxsplit it chunk splitcount) = NoError.
Proof.
  assert (Helse : forall chunk, raised (ws_else chunk) = NoError).
  { intros [|c chunk]; reflexivity. }
  induction it as [|c it IH]; intros chunk splitcount; simpl.
  - apply Helse.
  - destruct (isspace c); simpl; [|apply IH].
    destruct (nonempty chunk); [|apply IH].
    destruct (splitcount =? maxsplit)%Z; [apply Helse | reflexivity].
Qed.

Lemma lit_loop_raised : forall sep maxsplit it window chunk splitcount,
  raised (lit_loop sep maxsplit it window chunk splitcount) = NoError.
Proof.
  induction it as [|c it IH]; intros window chunk splitcount; simpl.
  - reflexivity.
  - destruct (lit_body sep maxsplit c window chunk splitcount);
      [apply IH | reflexivity | reflexivity].
Qed.

(** C6. The call only builds the frame and raises nothing.  The first
    pull raises a type error when the text is not a text, else a type
    error when the limit is given and is not an integer, else a type
    error when the separator is neither none nor a text, else a value
    error when the separator is the empty text; with any other
    arguments the first pull raises no error.  A frame that raised is
    finished. *)
Theorem isplit_validation : forall text sep maxsplit,
  isplit text sep maxsplit = ICreated text sep maxsplit
  /\ raised (isplit_next (isplit text sep maxsplit)) = validation text sep maxsplit
  /\ (validation text sep maxsplit <> NoError ->
      snd (isplit_next (isplit text sep maxsplit)) = IFinished).
Proof.
  intros text sep maxsplit. split; [reflexivity|].
  unfold isplit, validation. simpl isplit_next. unfold isplit_start.
  destruct text; try (split; reflexivity).
  destruct maxsplit; try (split; reflexivity);
    destruct sep; try (split; reflexivity); simpl;
    try (split; [apply ws_loop_raised | congruence]);
    match goal with
    | |- context [list_ascii_of_string ?s0] => destruct s0 as [|a s0]
    end; simpl list_ascii_of_string; cbv iota;
    try (split; reflexivity);
    (split; [apply lit_loop_raised | congruence]).
Qed.

Lemma isplit_validation_witness :
  validation (VInt 100500) VNone VNone <> NoError /\
  snd (isplit_next (isplit (VInt 100500) VNone VNone)) = IFinished.
Proof.
  split; [discriminate|].
  apply (isplit_validation (VInt 100500) VNone VNone). discriminate.
Defined.

Lemma fields_text_app : forall sep fields f,
  fields_text sep (fields ++ [f]) =
  fields_text sep fields ++ list_ascii_of_string f ++ sep.
Proof.
  intros sep fields f. unfold fields_text.
  rewrite flat_map_app. simpl. rewrite app_nil_r. reflexivity.
Qed.

Lemma lit_step_inv : forall sep maxsplit text fields st out st',
  lit_inv sep text fields st ->
  lit_step sep maxsplit st = Some (out, st') ->
  lit_inv sep text (fields ++ match out with Some f => [f] | None => [] end) st'.
Proof.
  intros sep maxsplit text fields [it window chunk splitcount] out st'
    [Hw Htext] Hstep.
  unfold lit_step in Hstep. simpl in *.
  destruct it as [|c it]; [discriminate|].
  destruct window as [d|t]; [|discriminate].
  destruct Hw as [Hml Hlen]. simpl in Htext.
  destruct (lit_body_eq sep maxsplit c d chunk splitcount Hml Hlen)
    as (d' & chunk' & Hml' & Happ & Hfull & Hpart & Hbody).
  assert (Hlen' : List.length (items d') <= List.length sep).
  { destruct (Nat.eq_dec (List.length (items d)) (List.length sep)) as [E|E].
    - apply Hfull in E. lia.
    - destruct Hpart as [E' _]; [lia|]. rewrite E', length_app. simpl. lia. }
  assert (HT : chunk ++ items d ++ c :: it = chunk' ++ items d' ++ it).
  { rewrite (app_assoc chunk'), Happ, <- !app_assoc. reflexivity. }
  rewrite Hbody in Hstep. rewrite HT in Htext.
  destruct (list_ascii_eqb (items d') sep) eqn:Eq.
  - apply list_ascii_eqb_eq in Eq.
    destruct (splitcount =? maxsplit)%Z;
      injection Hstep as <- <-; unfold lit_inv; simpl.
    + split; [reflexivity|].
      rewrite !app_nil_r. exact Htext.
    + split; [lia|].
      rewrite fields_text_app. unfold joined.
      rewrite list_ascii_of_string_of_list_ascii.
      rewrite Eq in Htext. rewrite <- !app_assoc. exact Htext.
  - injection Hstep as <- <-. unfold lit_inv. simpl.
    split; [lia|]. rewrite app_nil_r. exact Htext.
Qed.

Lemma lit_reach_inv : forall sep maxsplit text fields st,
  lit_reach sep maxsplit text fields st -> lit_inv sep text fields st.
Proof.
  induction 1 as [|fields st out st' _ IH Hstep].
  - unfold lit_inv, lit_init. simpl. split; [lia | reflexivity].
  - eapply lit_step_inv; eauto.
Qed.

(** C8. In every state the scan reaches, the window (the deque) is
    bounded by the separator's length plus one: it holds at most the
    separator's length between two iterations, the character an
    iteration appends brings it to no more than the bound and pushes
    nothing out of the deque, and the character taken from its front at
    the bound goes to [chunk].  No character is lost: the yielded fields
    with their separators, [chunk], the window and the pending input
    make up the text.  When the limit is reached the name [window] is
    rebound to a tuple holding the separator and all the pending input,
    and the scan makes no further step. *)
Theorem separator_window_bounded : forall sep maxsplit text fields st,
  lit_reach sep maxsplit text fields st ->
  match l_window st with
  | WDeque d =>
      maxlen d = List.length sep + 1
      /\ List.length (items d) <= List.length sep
      /\ forall char,
           items (deque_append d char) = items d ++ [char]
           /\ List.length (items (deque_append d char)) <= List.length sep + 1
           /\ exists d' chunk',
                chunk' ++ items d' = l_chunk st ++ items d ++ [char]
                /\ List.length (items d') <= List.length sep
                /\ lit_body sep maxsplit char d (l_chunk st) (l_splitcount st) =
                     if list_ascii_eqb (items d') sep then
                       if (l_splitcount st =? maxsplit)%Z
                       then LitRest (items d') chunk'
                       else LitYield d' chunk'
                     else LitContinue d' chunk'
  | WTuple _ => l_it st = [] /\ lit_step sep maxsplit st = None
  end
  /\ fields_text sep fields ++ l_chunk st ++ window_items (l_window st) ++ l_it st
     = text.
Proof.
  intros sep maxsplit text fields st Hreach.
  destruct (lit_reach_inv sep maxsplit text fields st Hreach) as [Hw Htext].
  split; [|exact Htext].
  destruct st as [it [d|t] chunk splitcount]; simpl in *.
  - destruct Hw as [Hml Hlen]. repeat split; try assumption.
    + unfold deque_append.
      replace (maxlen d =? 0) with false by (symmetry; apply Nat.eqb_neq; lia).
      replace (List.length (items d) =? maxlen d) with false
        by (symmetry; apply Nat.eqb_neq; lia).
      reflexivity.
    + unfold deque_append.
      replace (maxlen d =? 0) with false by (symmetry; apply Nat.eqb_neq; lia).
      replace (List.length (items d) =? maxlen d) with false
        by (symmetry; apply Nat.eqb_neq; lia).
      simpl. rewrite length_app. simpl. lia.
    + destruct (lit_body_eq sep maxsplit char d chunk splitcount Hml Hlen)
        as (d' & chunk' & Hml' & Happ & Hfull & Hpart & Hbody).
      exists d', chunk'. repeat split; try assumption.
      destruct (Nat.eq_dec (List.length (items d)) (List.length sep)) as [E|E].
      * apply Hfull in E. lia.
      * destruct Hpart as [E' _]; [lia|]. rewrite E', length_app. simpl. lia.
  - subst it. split; reflexivity.
Qed.

(** ** [flatten] against the depth-first reading *)

Lemma value_nested_ind : forall P : value -> Prop,
  P VNone ->
  (forall b, P (VBool b)) ->
  (forall z, P (VInt z)) ->
  (forall r, P (VFloat r)) ->
  (forall s, P (VStr s)) ->
  (forall l, Forall P l -> P (VList l)) ->
  (forall l, Forall P l -> P (VTuple l)) ->
  forall v, P v.
Proof.
  intros P HNone HBool HInt HFloat HStr HList HTuple.
  fix IH 1. intros [ | b | z | r | s | l | l ].
  - exact HNone.
  - apply HBool.
  - apply HInt.
  - apply HFloat.
  - apply HStr.
  - apply HList. induction l as [|x l IHl]; constructor; [apply IH | exact IHl].
  - apply HTuple. induction l as [|x l IHl]; constructor; [apply IH | exact IHl].
Qed.

Lemma then_nil_l : forall t, then_ ([], None) t = t.
Proof. intros [l e]. reflexivity. Qed.

Lemma then_nil_r : forall t, then_ t ([], None) = t.
Proof. intros [l [e|]]; simpl; [|rewrite app_nil_r]; reflexivity. Qed.

Lemma then_assoc : forall a b c, then_ (then_ a b) c = then_ a (then_ b c).
Proof.
  intros [la [ea|]] [lb [eb|]] [lc ec]; simpl; try reflexivity.
  rewrite app_assoc. reflexivity.
Qed.

Lemma read_eq : forall protected_iterables enforce_scalar v,
  read protected_iterables enforce_scalar v =
  match try_iter protected_iterables enforce_scalar v with
  | inl e => if caught e then ([v], None) else ([], Some e)
  | inr _ =>
      match v with
      | VList l => read_seq protected_iterables enforce_scalar l
      | VTuple l => read_seq protected_iterables enforce_scalar l
      | _ => ([], None)
      end
  end.
Proof. intros p f [ | b | z | r | s | l | l ]; reflexivity. Qed.

Lemma read_stack_cons : forall p f thing it iterators,
  read_stack p f (thing :: it) iterators =
  then_ (read p f thing) (read_stack p f it iterators).
Proof. intros. unfold read_stack. simpl. apply then_assoc. Qed.

Lemma read_stack_nil : forall p f it iterators,
  read_stack p f [] (it :: iterators) = read_stack p f it iterators.
Proof. intros. unfold read_stack. simpl. apply then_nil_l. Qed.

Lemma read_stack_push : forall p f sub it iterators,
  read_stack p f sub (it :: iterators) =
  then_ (read_seq p f sub) (read_stack p f it iterators).
Proof. reflexivity. Qed.

Lemma protects_text_string_types : forall protected_iterables,
  protects_text (string_types ++ protected_iterables).
Proof. intros p s. reflexivity. Qed.

(** The iterator of the inner [try] is that of a list or tuple. *)
Lemma try_iter_inr : forall p f thing sub,
  protects_text p ->
  try_iter p f thing = inr sub ->
  (thing = VList sub \/ thing = VTuple sub) /\ weight thing = S (frame_weight sub).
Proof.
  intros p f thing sub Hp H. unfold try_iter in H.
  destruct thing as [ | b | z | r | s | l | l ];
    try rewrite (Hp s) in H;
    repeat match type of H with
      | context [if ?c then _ else _] => destruct c
      | context [match ?o with Some _ => _ | None => _ end] => destruct o
      | context [match ?x with inl _ => _ | inr _ => _ end] =>
          destruct x as [?|[|]]
      end; simpl in H; try discriminate;
    injection H as <-; split; auto.
Qed.

Lemma next_reads_le : forall p f t r w w',
  w <= w' -> next_reads p f t r w -> next_reads p f t r w'.
Proof.
  intros p f [[|v vs] oe] r w w' Hle H; simpl in *; auto.
  destruct H as (it' & its' & ? & ? & ?). exists it', its'. repeat split; auto. lia.
Qed.

(** The loop terminates within the weight of its iterators and finds
    the first value of the depth-first reading. *)
Lemma flatten_loop_reads : forall p f,
  protects_text p ->
  forall fuel it iterators,
  frame_weight it + stack_weight iterators <= fuel ->
  exists r,
    flatten_loop fuel p f it iterators = Some r
    /\ next_reads p f (read_stack p f it iterators) r
         (frame_weight it + stack_weight iterators).
Proof.
  intros p f Hp. induction fuel as [|fuel IH]; intros it iterators Hfuel.
  - unfold frame_weight in Hfuel. lia.
  - destruct it as [|thing it].
    + destruct iterators as [|it' iterators]; simpl flatten_loop.
      * eexists. split; reflexivity.
      * rewrite read_stack_nil.
        destruct (IH it' iterators) as (r & Hr & Hn).
        { unfold frame_weight in *. simpl in *. lia. }
        exists r. split; [exact Hr|].
        eapply next_reads_le; [|exact Hn]. simpl. lia.
    + simpl flatten_loop. rewrite read_stack_cons, read_eq.
      destruct (try_iter p f thing) as [e|sub] eqn:Et.
      * destruct (caught e).
        -- eexists. split; [reflexivity|].
           destruct (read_stack p f it iterators) as [vs oe] eqn:Er. simpl.
           exists it, iterators. repeat split; auto.
           unfold frame_weight. simpl.
           assert (0 < weight thing) by (destruct thing; simpl; lia). lia.
        -- eexists. split; reflexivity.
      * destruct (try_iter_inr p f thing sub Hp Et) as [Hthing Hw].
        assert (Hread :
          match thing with
          | VList l => read_seq p f l
          | VTuple l => read_seq p f l
          | _ => ([], None)
          end = read_seq p f sub).
        { destruct Hthing as [-> | ->]; reflexivity. }
        rewrite Hread, <- read_stack_push.
        destruct (IH sub (it :: iterators)) as (r & Hr & Hn).
        { unfold frame_weight in *. simpl in *. lia. }
        exists r. split; [exact Hr|].
        eapply next_reads_le; [|exact Hn].
        unfold frame_weight in *. simpl in *. lia.
Qed.

(** Pulling to the end gives the whole depth-first reading. *)
Lemma flatten_consume_reads : forall p f,
  protects_text p ->
  forall n it iterators,
  frame_weight it + stack_weight iterators <= n ->
  flatten_consume (S n) (FAtYield p f it iterators) =
  Some (read_stack p f it iterators).
Proof.
  intros p f Hp. induction n as [|n IH]; intros it iterators Hn.
  - unfold frame_weight in Hn. lia.
  - change (flatten_consume (S (S n)) (FAtYield p f it iterators))
      with (match flatten_next (FAtYield p f it iterators) with
            | None => None
            | Some (StopIteration, _) => Some ([], None)
            | Some (Raise e, _) => Some ([], Some e)
            | Some (Yield v, g') =>
                match flatten_consume (S n) g' with
                | Some (l, e) => Some (v :: l, e)
                | None => None
                end
            end).
    unfold flatten_next.
    destruct (flatten_loop_reads p f Hp _ it iterators (le_n _)) as (r & -> & Hr).
    destruct (read_stack p f it iterators) as [[|v vs] [e|]];
      unfold next_reads in Hr;
      try (subst r; reflexivity);
      destruct Hr as (it' & its' & -> & Hread & Hw);
      rewrite IH by lia; rewrite Hread; reflexivity.
Qed.

Lemma flatten_consume_created : forall n thing p f it,
  py_iter thing = inr it ->
  flatten_consume (S n) (FCreated thing p f) =
  flatten_consume (S n) (FAtYield (string_types ++ p) f it []).
Proof.
  intros n thing p f it Ei.
  assert (E : flatten_next (FCreated thing p f) =
              flatten_next (FAtYield (string_types ++ p) f it [])).
  { unfold flatten_next. rewrite Ei. unfold stack_weight. simpl fold_right.
    rewrite Nat.add_0_r. reflexivity. }
  change (flatten_consume (S n) (FCreated thing p f))
    with (match flatten_next (FCreated thing p f) with
          | None => None
          | Some (StopIteration, _) => Some ([], None)
          | Some (Raise e, _) => Some ([], Some e)
          | Some (Yield v, g') =>
              match flatten_consume n g' with
              | Some (l, e) => Some (v :: l, e)
              | None => None
              end
          end).
  rewrite E. reflexivity.
Qed.

Lemma read_stack_bottom : forall p f it, read_stack p f it [] = read_seq p f it.
Proof. intros. unfold read_stack. simpl. apply then_nil_r. Qed.

Lemma flatten_list_reads : forall thing protected_iterables enforce_scalar,
  flatten_list (flatten thing protected_iterables enforce_scalar) =
  Some
    match py_iter thing with
    | inl e => ([], Some e)
    | inr it => read_seq (string_types ++ protected_iterables) enforce_scalar it
    end.
Proof.
  intros thing p f. unfold flatten_list, flatten. unfold flatten_pending.
  destruct (py_iter thing) as [e|it] eqn:Ei.
  - simpl. rewrite Ei. reflexivity.
  - rewrite (flatten_consume_created _ thing p f it Ei).
    rewrite flatten_consume_reads.
    + rewrite read_stack_bottom. reflexivity.
    + apply protects_text_string_types.
    + unfold stack_weight, frame_weight. simpl. lia.
Qed.

Lemma leaves_eq : forall types p v,
  leaves types p v =
  if atomic types p v then [v]
  else
    match v with
    | VList l => flat_map (leaves types p) l
    | VTuple l => flat_map (leaves types p) l
    | _ => [v]
    end.
Proof. intros types p [ | b | z | r | s | l | l ]; reflexivity. Qed.

Lemma isinstance_app : forall v a b,
  isinstance v (a ++ b) = isinstance v a || isinstance v b.
Proof. intros. unfold isinstance. apply existsb_app. Qed.

(** The inner [try] with a predicate that never raises. *)
Lemma try_iter_returns : forall types p v,
  try_iter (string_types ++ types) (option_map returns p) v =
  if isinstance v string_types || isinstance v types
     || match p with Some q => q v | None => false end
  then inl (ValueError "thing")
  else py_iter v.
Proof.
  intros types p v. unfold try_iter. rewrite isinstance_app.
  destruct (isinstance v string_types || isinstance v types); simpl;
    [reflexivity|].
  destruct p as [q|]; simpl; [|reflexivity].
  unfold returns. destruct (q v); reflexivity.
Qed.

Lemma py_iter_caught : forall v e, py_iter v = inl e -> caught e = true.
Proof.
  intros [ | b | z | r | s | l | l ] e H; simpl in H; try discriminate;
    injection H as <-; reflexivity.
Qed.

Lemma read_seq_cons : forall p f v l,
  read_seq p f (v :: l) = then_ (read p f v) (read_seq p f l).
Proof. reflexivity. Qed.

Lemma read_seq_leaves : forall types p l,
  Forall (fun v => read (string_types ++ types) (option_map returns p) v
                   = (leaves types p v, None)) l ->
  read_seq (string_types ++ types) (option_map returns p) l =
  (flat_map (leaves types p) l, None).
Proof.
  intros types p l H. induction H as [|v l Hv _ IH]; [reflexivity|].
  rewrite read_seq_cons, Hv, IH. reflexivity.
Qed.

(** With a predicate that never raises, the reading is the reading of
    the atomic values, and no exception ends it. *)
Lemma read_leaves : forall types p v,
  read (string_types ++ types) (option_map returns p) v = (leaves types p v, None).
Proof.
  intros types p. induction v using value_nested_ind;
    rewrite read_eq, leaves_eq, try_iter_returns; unfold atomic;
    match goal with
    | |- context [?a || ?b || ?c || ?d] => destruct (a || b || c) eqn:E
    end; simpl orb; cbv iota; try reflexivity;
    try (apply read_seq_leaves; assumption).
  simpl in E. discriminate.
Qed.

Lemma flat_map_atomic : forall types p l,
  forallb (atomic types p) l = true -> flat_map (leaves types p) l = l.
Proof.
  induction l as [|v l IH]; simpl; [reflexivity|].
  rewrite andb_true_iff. intros [Hv Hl].
  rewrite leaves_eq, Hv, IH by assumption. reflexivity.
Qed.

Lemma read_seq_texts : forall p f strings,
  read_seq (string_types ++ p) f (map VStr strings) = (map VStr strings, None).
Proof.
  intros p f. induction strings as [|s l IH]; [reflexivity|].
  simpl map. rewrite read_seq_cons, IH, read_eq. reflexivity.
Qed.

(** ** The claims on [flatten] *)

(** C2. For every list or tuple, whatever types are protected and
    whatever the predicate answers, [flatten] produces the atomic values
    of the nested structure read left to right, depth first, and then
    ends; so a sequence whose elements are all atomic comes out as it
    is. *)
Theorem flatten_depth_first : forall elems protected_types protect_predicate,
  flatten_list
    (flatten (VList elems) protected_types (option_map returns protect_predicate))
  = Some (flat_map (leaves protected_types protect_predicate) elems, None)
  /\ flatten_list
       (flatten (VTuple elems) protected_types (option_map returns protect_predicate))
     = Some (flat_map (leaves protected_types protect_predicate) elems, None)
  /\ (forallb (atomic protected_types protect_predicate) elems = true ->
      flatten_list
        (flatten (VList elems) protected_types (option_map returns protect_predicate))
      = Some (elems, None))
  /\ (forall enforce_scalar,
        flatten_list (flatten (VList elems) protected_types enforce_scalar)
        = Some (read_seq (string_types ++ protected_types) enforce_scalar elems)).
Proof.
  intros elems types p.
  assert (H : read_seq (string_types ++ types) (option_map returns p) elems
              = (flat_map (leaves types p) elems, None)).
  { apply read_seq_leaves. apply Forall_forall. intros v _. apply read_leaves. }
  split; [|split; [|split]].
  - rewrite flatten_list_reads. unfold py_iter. rewrite H. reflexivity.
  - rewrite flatten_list_reads. unfold py_iter. rewrite H. reflexivity.
  - intros Hflat. rewrite flatten_list_reads. unfold py_iter. rewrite H.
    rewrite flat_map_atomic by assumption. reflexivity.
  - intros f. rewrite flatten_list_reads. reflexivity.
Qed.

Lemma flatten_depth_first_witness :
  forallb (atomic [TTuple] None) [VInt 1; VStr "two"; VTuple [VInt 3]] = true /\
  flatten_list
    (flatten (VList [VInt 1; VStr "two"; VTuple [VInt 3]]) [TTuple]
       (option_map returns None))
  = Some ([VInt 1; VStr "two"; VTuple [VInt 3]], None).
Proof.
  split; [reflexivity|].
  exact (proj1 (proj2 (proj2 (flatten_depth_first
                                [VInt 1; VStr "two"; VTuple [VInt 3]] [TTuple] None)))
           eq_refl).
Defined.

(** C3. Whatever types are protected and whatever the predicate, a text
    pulled during the traversal is yielded as it is and the traversal
    goes on with the element after it; a list of texts flattens to
    itself; [flatten(['a', ['sequence', ['of'], 'strings']])] is
    ['a', 'sequence', 'of', 'strings']. *)
Theorem flatten_text_is_atomic : forall protected_iterables enforce_scalar,
  (forall s it iterators,
     flatten_next
       (FAtYield (string_types ++ protected_iterables) enforce_scalar
          (VStr s :: it) iterators)
     = Some (Yield (VStr s),
             FAtYield (string_types ++ protected_iterables) enforce_scalar
               it iterators))
  /\ (forall strings,
        flatten_list
          (flatten (VList (map VStr strings)) protected_iterables enforce_scalar)
        = Some (map VStr strings, None))
  /\ flatten_list
       (flatten
          (VList [VStr "a"; VList [VStr "sequence"; VList [VStr "of"]; VStr "strings"]])
          [] None)
     = Some ([VStr "a"; VStr "sequence"; VStr "of"; VStr "strings"], None).
Proof.
  intros p f. split; [|split].
  - intros s it iterators. reflexivity.
  - intros strings. rewrite flatten_list_reads. unfold py_iter.
    rewrite read_seq_texts. reflexivity.
  - vm_compute. reflexivity.
Qed.

(** C7. For an argument that is not iterable the call only builds the
    frame; the type error is raised by the first pull, which finishes
    the frame. *)
Theorem flatten_not_iterable : forall thing protected_iterables enforce_scalar e,
  py_iter thing = inl e ->
  flatten thing protected_iterables enforce_scalar
  = FCreated thing protected_iterables enforce_scalar
  /\ is_TypeError e = true
  /\ flatten_next (flatten thing protected_iterables enforce_scalar)
     = Some (Raise e, FFinished)
  /\ flatten_list (flatten thing protected_iterables enforce_scalar)
     = Some ([], Some e).
Proof.
  intros thing p f e H. split; [reflexivity|]. split; [|split].
  - destruct thing; simpl in H; try discriminate; injection H as <-; reflexivity.
  - unfold flatten, flatten_next. rewrite H. reflexivity.
  - rewrite flatten_list_reads, H. reflexivity.
Qed.

Lemma flatten_not_iterable_witness :
  py_iter (VInt 7) = inl (TypeError "object is not iterable") /\
  flatten_next (flatten (VInt 7) [] None)
  = Some (Raise (TypeError "object is not iterable"), FFinished).
Proof.
  split; [reflexivity|].
  apply (flatten_not_iterable (VInt 7) [] None (TypeError "object is not iterable")).
  reflexivity.
Defined.

(** C9. A text given as the argument itself is iterated: [flatten]
    yields its characters one by one, each as a text of one character.
    The protection of text concerns the values pulled, and those
    characters are such values. *)
Theorem flatten_top_level_text : forall s protected_iterables enforce_scalar,
  flatten_list (flatten (VStr s) protected_iterables enforce_scalar)
  = Some (map (fun c => VStr (char_str c)) (list_ascii_of_string s), None).
Proof.
  intros s p f. rewrite flatten_list_reads. unfold py_iter.
  rewrite <- (map_map char_str VStr). rewrite read_seq_texts. reflexivity.
Qed.

(** C10. When the predicate is applied to a pulled value and raises a
    TypeError or a ValueError, the value is yielded as it is and the
    traversal goes on; when it raises anything else, the exception
    reaches the consumer and the frame is finished. *)
Theorem flatten_predicate_raises :
  forall protected_iterables f thing it iterators e,
  isinstance thing protected_iterables = false ->
  f thing = inl e ->
  flatten_next (FAtYield protected_iterables (Some f) (thing :: it) iterators)
  = Some
      match e with
      | TypeError _ | ValueError _ =>
          (Yield thing, FAtYield protected_iterables (Some f) it iterators)
      | OtherError _ => (Raise e, FFinished)
      end.
Proof.
  intros p f thing it iterators e Hp Hf.
  unfold flatten_next, frame_weight. simpl.
  unfold try_iter. rewrite Hp, Hf. destruct e; reflexivity.
Qed.

Lemma flatten_predicate_raises_witness :
  let f : predicate := fun _ => inl (OtherError "KeyError") in
  isinstance (VList [VInt 1]) string_types = false /\
  f (VList [VInt 1]) = inl (OtherError "KeyError") /\
  flatten_next (FAtYield string_types (Some f) [VList [VInt 1]; VInt 2] [])
  = Some (Raise (OtherError "KeyError"), FFinished).
Proof.
  intros f. split; [reflexivity|]. split; [reflexivity|].
  apply (flatten_predicate_raises string_types f (VList [VInt 1]) [VInt 2] []
           (OtherError "KeyError")); reflexivity.
Defined.

(** ** No limit is a limit no text can use up *)

Lemma strip_prefix_some : forall sep s r,
  strip_prefix sep s = Some r -> s = sep ++ r.
Proof.
  induction sep as [|x sep IH]; intros [|y s] r H; simpl in H;
    try discriminate; try (injection H as <-; reflexivity).
  destruct (Ascii.eqb x y) eqn:E; [|discriminate].
  apply Ascii.eqb_eq in E. subst y. simpl. f_equal. apply IH. exact H.
Qed.

Lemma str_partition_some : forall sep s b a,
  str_partition sep s = Some (b, a) -> s = b ++ sep ++ a.
Proof.
  induction s as [|c s IH]; intros b a H; rewrite str_partition_eq in H;
    destruct (strip_prefix sep _) as [r|] eqn:E;
    try discriminate;
    try (injection H as <- <-; simpl; apply strip_prefix_some; exact E).
  destruct (str_partition sep s) as [[b' a']|]; [|discriminate].
  injection H as <- <-. simpl. f_equal. apply IH. reflexivity.
Qed.

Lemma split_sep_enough : forall sep, sep <> [] ->
  forall n m s, List.length s <= n -> List.length s <= m ->
  split_sep sep n s = split_sep sep m s.
Proof.
  intros sep Hsep.
  assert (Hm : 0 < List.length sep) by (destruct sep; [congruence | simpl; lia]).
  assert (Hlen : forall s b a, str_partition sep s = Some (b, a) ->
                 List.length a < List.length s).
  { intros s b a H. apply str_partition_some in H. subst s.
    rewrite !length_app. lia. }
  induction n as [|n IH]; intros [|m] s Hn Hm'; simpl; try reflexivity;
    destruct (str_partition sep s) as [[b a]|] eqn:E; try reflexivity;
    pose proof (Hlen s b a E); try lia.
  f_equal. apply IH; lia.
Qed.

Lemma lstrip_length : forall s, List.length (lstrip s) <= List.length s.
Proof.
  induction s as [|c s IH]; simpl; [lia|].
  destruct (isspace c); simpl; lia.
Qed.

Lemma break_word_length : forall s,
  List.length (fst (break_word s)) + List.length (snd (break_word s))
  = List.length s.
Proof.
  induction s as [|c s IH]; simpl; [reflexivity|].
  destruct (isspace c); simpl; [reflexivity|].
  destruct (break_word s) as [w r]. simpl in *. lia.
Qed.

Lemma split_whitespace_enough : forall n m s,
  List.length s <= n -> List.length s <= m ->
  split_whitespace n s = split_whitespace m s.
Proof.
  induction n as [|n IH]; intros m s Hn Hm;
    rewrite (split_whitespace_eq _ s), (split_whitespace_eq m s);
    pose proof (lstrip_length s) as Hl;
    destruct (lstrip s) as [|c t] eqn:E; try reflexivity;
    simpl in Hl; try lia.
  destruct m as [|m]; [lia|].
  f_equal.
  pose proof (break_word_head c t (lstrip_head s c t E)) as Hw.
  pose proof (break_word_length (c :: t)) as Hb.
  destruct (fst (break_word (c :: t))) as [|x w] eqn:Ew; [congruence|].
  change (List.length (x :: w)) with (S (List.length w)) in Hb.
  change (List.length (c :: t)) with (S (List.length t)) in Hb.
  apply IH; lia.
Qed.

(** ** Examples from the tests and the documentation *)

Example isplit_limit_whitespace :
  isplit_list
    (isplit (VStr " lorem   ipsum dolor sit amet ") VNone (VInt 0))
  = Some (["lorem   ipsum dolor sit amet "], None).
Proof. vm_compute. reflexivity. Qed.

Example isplit_longer_separator :
  isplit_list (isplit (VStr "aaa") (VStr "aaaa") VNone) = Some (["aaa"], None).
Proof. vm_compute. reflexivity. Qed.

Example isplit_first_field :
  fst (isplit_next (isplit (VStr "lorem ipsum dolor") (VStr " ") (VInt 3)))
  = Yield "lorem".
Proof. vm_compute. reflexivity. Qed.

Example flatten_all :
  flatten_list
    (flatten
       (VList [VTuple [VInt 1; VInt 2];
               VList [VInt 3; VTuple [VInt 4]; VInt 5; VFloat "5.5"];
               VInt 6; VList [VInt 7; VInt 8]])
       [] None)
  = Some ([VInt 1; VInt 2; VInt 3; VInt 4; VInt 5; VFloat "5.5";
           VInt 6; VInt 7; VInt 8], None).
Proof. vm_compute. reflexivity. Qed.

Example flatten_but_tuples :
  flatten_list
    (flatten
       (VList [VTuple [VInt 1; VInt 2];
               VList [VInt 3; VTuple [VInt 4]; VInt 5; VFloat "5.5"];
               VInt 6; VList [VInt 7; VInt 8]])
       [TTuple] None)
  = Some ([VTuple [VInt 1; VInt 2]; VInt 3; VTuple [VInt 4]; VInt 5;
           VFloat "5.5"; VInt 6; VInt 7; VInt 8], None).
Proof. vm_compute. reflexivity. Qed.

(** At the limit the name [window] holds the separator and the rest of
    the input, which the bound of the deque does not concern. *)
Example window_rebound_at_limit :
  lit_reach [":"%char] 0 ["a"; ":"; "b"; "c"]%char []
    {| l_it := []; l_window := WTuple [":"; "b"; "c"]%char;
       l_chunk := ["a"%char]; l_splitcount := 0%Z |}.
Proof.
  exact (reach_step [":"%char] 0 ["a"; ":"; "b"; "c"]%char [] _ None _
           (reach_step [":"%char] 0 ["a"; ":"; "b"; "c"]%char [] _ None _
              (reach_init _ _ _) eq_refl)
           eq_refl).
Qed.

Lemma lit_reach_after_first_field :
  lit_reach [":"%char] (-1) ["a"; ":"; "b"; "c"]%char ["a"]
    {| l_it := ["b"; "c"]%char;
       l_window := WDeque {| maxlen := 2; items := [] |};
       l_chunk := []; l_splitcount := 1%Z |}.
Proof.
  exact (reach_step [":"%char] (-1) ["a"; ":"; "b"; "c"]%char [] _ (Some "a") _
           (reach_step [":"%char] (-1) ["a"; ":"; "b"; "c"]%char [] _ None _
              (reach_init _ _ _) eq_refl)
           eq_refl).
Defined.

Lemma separator_window_bounded_witness :
  lit_reach [":"%char] (-1) ["a"; ":"; "b"; "c"]%char ["a"]
    {| l_it := ["b"; "c"]%char;
       l_window := WDeque {| maxlen := 2; items := [] |};
       l_chunk := []; l_splitcount := 1%Z |}
  /\ fields_text [":"%char] ["a"] ++ [] ++ [] ++ ["b"; "c"]%char
     = ["a"; ":"; "b"; "c"]%char.
Proof.
  split; [exact lit_reach_after_first_field|].
  exact (proj2 (separator_window_bounded [":"%char] (-1)
                  ["a"; ":"; "b"; "c"]%char ["a"] _
                  lit_reach_after_first_field)).
Defined.

(** * Further properties *)

(** ** every_nth, even, odd *)


Lemma islice_from_length : forall step, 0 < step ->
  forall it skip,
  List.length (islice_from it skip step)
  = (List.length it + step - 1 - skip) / step.
Proof.
  intros step Hstep. induction it as [|x it IH]; intros skip.
  - simpl. symmetry. apply Nat.div_small. lia.
  - destruct skip as [|skip]; simpl islice_from.
    + simpl List.length. rewrite IH.
      replace (S (List.length it) + step - 1 - 0)
        with (List.length it + 1 * step) by lia.
      rewrite Nat.div_add by lia.
      replace (List.length it + step - 1 - (step - 1)) with (List.length it) by lia.
      lia.
    + rewrite IH. simpl List.length. f_equal. lia.
Qed.






(** X2. Only [shift] modulo [n] matters: moving [shift] by a multiple
    of [n] changes neither the iterator returned nor the exception
    raised, whatever [thing] is. *)
Theorem every_nth_shift_periodic : forall thing n shift k,
  every_nth thing (VInt n) (VInt (shift + k * n))
  = every_nth thing (VInt n) (VInt shift).
Proof.
  intros thing n shift k. unfold every_nth. simpl int_value. cbv iota.
  destruct (n <? 1)%Z eqn:E1; [reflexivity|].
  destruct (n =? 1)%Z; [reflexivity|].
  apply Z.ltb_ge in E1.
  replace (shift + k * n - 1)%Z with (shift - 1 + k * n)%Z by lia.
  rewrite Z.mod_add by lia. reflexivity.
Qed.



Lemma list_pair_ind : forall P : list value -> Prop,
  P [] -> (forall x, P [x]) -> (forall x y l, P l -> P (x :: y :: l)) ->
  forall l, P l.
Proof.
  intros P H0 H1 H2.
  assert (H : forall l, P l /\ forall x, P (x :: l)).
  { induction l as [|y l [IHl IHx]]; split; auto. }
  intros l. apply H.
Qed.

Lemma islice_interleave : forall l,
  interleave (islice_from l 0 2) (islice_from l 1 2) = l.
Proof.
  induction l as [|x|x y l IH] using list_pair_ind; try reflexivity.
  simpl. rewrite IH. reflexivity.
Qed.

(** X4. [odd] returns the first, third, fifth, ... element of an
    iterable and [even] the second, fourth, ...: taken in turn they are
    the elements of the iterable, [odd] has the larger half when the
    number of elements is odd.  They are [every_nth] with [n] 2 and
    [shift] 1 and 0, also in what they raise. *)
Theorem even_odd_split : forall thing,
  even thing = every_nth thing (VInt 2) (VInt 0)
  /\ odd thing = every_nth thing (VInt 2) (VInt 1)
  /\ forall l, py_iter thing = inr l ->
       exists o e,
         odd thing = inr o /\ even thing = inr e
         /\ interleave o e = l
         /\ List.length o = (List.length l + 1) / 2
         /\ List.length e = List.length l / 2.
Proof.
  intros thing. split; [reflexivity|]. split; [reflexivity|].
  intros l Hl.
  exists (islice_from l 0 2), (islice_from l 1 2).
  split; [unfold odd, islice; rewrite Hl; reflexivity|].
  split; [unfold even, islice; rewrite Hl; reflexivity|].
  split.
  - apply islice_interleave.
  - rewrite !islice_from_length by lia. split; f_equal; lia.
Qed.

Lemma even_odd_split_witness :
  py_iter (VStr "abcde") = inr (map VStr ["a"; "b"; "c"; "d"; "e"])
  /\ exists o e,
       odd (VStr "abcde") = inr o /\ even (VStr "abcde") = inr e
       /\ interleave o e = map VStr ["a"; "b"; "c"; "d"; "e"]
       /\ List.length o = (List.length (map VStr ["a"; "b"; "c"; "d"; "e"]) + 1) / 2
       /\ List.length e = List.length (map VStr ["a"; "b"; "c"; "d"; "e"]) / 2.
Proof.
  split; [reflexivity|].
  exact (proj2 (proj2 (even_odd_split (VStr "abcde"))) _ eq_refl).
Defined.





(** ** isplit *)

Lemma joined_app : forall a b, joined (a ++ b) = (joined a ++ joined b)%string.
Proof.
  induction a as [|x a IH]; intros b; simpl; [reflexivity|].
  unfold joined in *. rewrite IH. reflexivity.
Qed.

Lemma chars_app : forall s t,
  list_ascii_of_string (s ++ t)%string
  = list_ascii_of_string s ++ list_ascii_of_string t.
Proof.
  induction s as [|c s IH]; intros t; simpl; [reflexivity|].
  rewrite IH. reflexivity.
Qed.

Lemma joined_chars : forall s, joined (list_ascii_of_string s) = s.
Proof. intros s. apply string_of_list_ascii_of_string. Qed.

Lemma chars_joined : forall l, list_ascii_of_string (joined l) = l.
Proof. intros l. apply list_ascii_of_string_of_list_ascii. Qed.

Lemma occurs_in_contains : forall sep f,
  occurs_in sep (joined f) -> contains (list_ascii_of_string sep) f.
Proof.
  intros sep f (p & q & H).
  exists (list_ascii_of_string p), (list_ascii_of_string q).
  rewrite <- !chars_app, <- H, chars_joined. reflexivity.
Qed.

Lemma contains_occurs_in : forall sep text,
  contains (list_ascii_of_string sep) (list_ascii_of_string text) ->
  occurs_in sep text.
Proof.
  intros sep text (p & q & H). exists (joined p), (joined q).
  rewrite <- (joined_chars text), H, !joined_app, joined_chars. reflexivity.
Qed.

Lemma str_partition_contains : forall sep p q,
  str_partition sep (p ++ sep ++ q) <> None.
Proof.
  induction p as [|c p IH]; intros q; rewrite str_partition_eq.
  - simpl. rewrite strip_prefix_app. discriminate.
  - destruct (strip_prefix sep _); [discriminate|]. simpl.
    specialize (IH q).
    destruct (str_partition sep (p ++ sep ++ q)) as [[b a]|];
      [discriminate | congruence].
Qed.

Lemma str_partition_none_contains : forall sep s,
  str_partition sep s = None -> ~ contains sep s.
Proof.
  intros sep s H (p & q & ->). exact (str_partition_contains sep p q H).
Qed.

Lemma not_contains_str_partition : forall sep s,
  ~ contains sep s -> str_partition sep s = None.
Proof.
  intros sep s H. destruct (str_partition sep s) as [[b a]|] eqn:E; [|reflexivity].
  exfalso. apply H. exists b, a. apply str_partition_some. exact E.
Qed.

(** The text before the leftmost occurrence holds no occurrence. *)
Lemma str_partition_before : forall sep, sep <> [] ->
  forall s b a, str_partition sep s = Some (b, a) -> ~ contains sep b.
Proof.
  intros sep Hsep. induction s as [|c s IH]; intros b a H;
    rewrite str_partition_eq in H;
    destruct (strip_prefix sep _) as [r|] eqn:E; try discriminate.
  - injection H as <- <-. intros ([|x p] & q & Hc); destruct sep; try discriminate;
      congruence.
  - injection H as <- <-. intros ([|x p] & q & Hc); destruct sep; try discriminate;
      congruence.
  - destruct (str_partition sep s) as [[b' a']|] eqn:Es; [|discriminate].
    injection H as <- <-. intros ([|x p] & q & Hc).
    + simpl in Hc.
      pose proof (str_partition_some sep s b' a' Es) as Hs.
      assert (Hpre : strip_prefix sep (c :: s) = Some (q ++ sep ++ a')).
      { rewrite Hs. change (c :: b' ++ sep ++ a') with ((c :: b') ++ sep ++ a').
        rewrite Hc, <- app_assoc. apply strip_prefix_app. }
      congruence.
    + simpl in Hc. injection Hc as -> Hc.
      apply (IH b' a' eq_refl). exists p, q. exact Hc.
Qed.

Lemma split_sep_join : forall sep n s,
  str_join (joined sep) (map joined (split_sep sep n s)) = joined s.
Proof.
  induction n as [|n IH]; intros s; simpl; [reflexivity|].
  destruct (str_partition sep s) as [[b a]|] eqn:E; [|reflexivity].
  apply str_partition_some in E. subst s.
  specialize (IH a). pose proof (split_sep_not_nil sep n a) as Hne.
  destruct (split_sep sep n a) as [|f rest]; [congruence|].
  change (str_join (joined sep) (map joined (b :: f :: rest)))
    with (joined b ++ joined sep ++ str_join (joined sep) (map joined (f :: rest)))%string.
  rewrite IH, !joined_app. reflexivity.
Qed.

Lemma split_sep_length : forall sep n s, List.length (split_sep sep n s) <= S n.
Proof.
  induction n as [|n IH]; intros s; simpl; [lia|].
  destruct (str_partition sep s) as [[b a]|]; simpl; [|lia].
  specialize (IH a). lia.
Qed.

Lemma split_whitespace_length : forall n s,
  List.length (split_whitespace n s) <= S n.
Proof.
  induction n as [|n IH]; intros s; rewrite split_whitespace_eq;
    destruct (lstrip s) as [|c t]; try (simpl; lia).
  specialize (IH (snd (break_word (c :: t)))).
  rewrite length_cons. lia.
Qed.

Lemma split_sep_fields : forall sep, sep <> [] ->
  forall n s,
  exists init last,
    split_sep sep n s = init ++ [last]
    /\ Forall (fun f => ~ contains sep f) init
    /\ (List.length s <= n -> ~ contains sep last).
Proof.
  intros sep Hsep.
  assert (Hnil : ~ contains sep []).
  { intros ([|x p] & q & H); destruct sep; try discriminate; congruence. }
  induction n as [|n IH]; intros s; simpl.
  - exists [], s. repeat split; [constructor|].
    intros H. destruct s; [exact Hnil | simpl in H; lia].
  - destruct (str_partition sep s) as [[b a]|] eqn:E.
    + destruct (IH a) as (init & last & -> & Hinit & Hlast).
      exists (b :: init), last. repeat split.
      * constructor; [|exact Hinit].
        apply (str_partition_before sep Hsep s b a E).
      * intros H. apply Hlast.
        apply str_partition_some in E. subst s.
        rewrite !length_app in H.
        assert (0 < List.length sep) by (destruct sep; [congruence | simpl; lia]).
        lia.
    + exists [], s. repeat split; [constructor|].
      intros _. apply str_partition_none_contains. exact E.
Qed.

Lemma break_word_app : forall s,
  fst (break_word s) ++ snd (break_word s) = s.
Proof.
  induction s as [|c s IH]; simpl; [reflexivity|].
  destruct (isspace c); [reflexivity|].
  destruct (break_word s) as [w r]. simpl in *. congruence.
Qed.

Lemma break_word_fst_nospace : forall s, nospace (fst (break_word s)).
Proof.
  induction s as [|c s IH]; simpl; [constructor|].
  destruct (isspace c) eqn:E; [constructor|].
  destruct (break_word s) as [w r]. simpl in *. constructor; assumption.
Qed.

Lemma filter_nospace : forall w,
  nospace w -> filter (fun c => negb (isspace c)) w = w.
Proof.
  induction 1 as [|c w Hc _ IH]; simpl; [reflexivity|].
  rewrite Hc. simpl. congruence.
Qed.

Lemma filter_lstrip : forall s,
  filter (fun c => negb (isspace c)) (lstrip s)
  = filter (fun c => negb (isspace c)) s.
Proof.
  induction s as [|c s IH]; simpl; [reflexivity|].
  destruct (isspace c) eqn:E; simpl; [exact IH|].
  rewrite E. reflexivity.
Qed.

Lemma split_whitespace_words : forall n s,
  List.length s <= n ->
  Forall nospace (split_whitespace n s)
  /\ List.concat (split_whitespace n s) = filter (fun c => negb (isspace c)) s.
Proof.
  induction n as [|n IH]; intros s Hn; rewrite split_whitespace_eq;
    rewrite <- (filter_lstrip s);
    pose proof (lstrip_length s) as Hl;
    destruct (lstrip s) as [|c t] eqn:E;
    try (split; [constructor | reflexivity]).
  - simpl in Hl. lia.
  - pose proof (break_word_app (c :: t)) as Happ.
    pose proof (break_word_fst_nospace (c :: t)) as Hw.
    pose proof (break_word_head c t (lstrip_head s c t E)) as Hne.
    pose proof (break_word_length (c :: t)) as Hlen.
    destruct (break_word (c :: t)) as [w r]. simpl fst in *. simpl snd in *.
    destruct (IH r) as [Hf Hc].
    { destruct w; [congruence|]. simpl in Hlen, Hl. lia. }
    split; [constructor; assumption|].
    simpl List.concat. rewrite Hc, <- Happ, filter_app, (filter_nospace w Hw).
    reflexivity.
Qed.

Lemma lstrip_spaces : forall s,
  (forall c, In c s -> isspace c = true) -> lstrip s = [].
Proof.
  induction s as [|c s IH]; intros H; simpl; [reflexivity|].
  rewrite (H c (or_introl eq_refl)). apply IH. intros x Hx. apply H. right. exact Hx.
Qed.

Lemma concat_chars_joined : forall l,
  List.concat (map list_ascii_of_string (map joined l)) = List.concat l.
Proof.
  induction l as [|f l IH]; simpl; [reflexivity|].
  rewrite chars_joined, IH. reflexivity.
Qed.

(** X6. With a separator, joining the fields with the separator gives
    the text back, whatever the limit. *)
Theorem isplit_join : forall text c d maxsplit,
  exists fields,
    isplit_list (isplit (VStr text) (VStr (String c d)) (opt_int maxsplit))
    = Some (fields, None)
    /\ str_join (String c d) fields = text.
Proof.
  intros text c d maxsplit.
  pose proof (isplit_list_str_split text (Some (String c d)) maxsplit
                ltac:(discriminate)) as H.
  simpl opt_str in H. rewrite H. eexists. split; [reflexivity|].
  unfold str_split.
  rewrite <- (joined_chars (String c d)) at 1.
  rewrite split_sep_join. apply joined_chars.
Qed.

(** X7. With a limit that is not negative there are at most that many
    fields and one more, with a separator or without. *)
Theorem isplit_field_count : forall text sep maxsplit,
  sep <> Some EmptyString -> (0 <= maxsplit)%Z ->
  exists fields,
    isplit_list (isplit (VStr text) (opt_str sep) (VInt maxsplit))
    = Some (fields, None)
    /\ List.length fields <= Z.to_nat maxsplit + 1.
Proof.
  intros text sep maxsplit Hsep Hn.
  pose proof (isplit_list_str_split text sep (Some maxsplit) Hsep) as H.
  simpl opt_int in H. rewrite H. eexists. split; [reflexivity|].
  unfold str_split. rewrite length_map.
  replace (maxsplit <? 0)%Z with false by (symmetry; apply Z.ltb_ge; lia).
  destruct sep as [d|].
  - pose proof (split_sep_length (list_ascii_of_string d) (Z.to_nat maxsplit)
                  (list_ascii_of_string text)). lia.
  - pose proof (split_whitespace_length (Z.to_nat maxsplit)
                  (list_ascii_of_string text)). lia.
Qed.

Lemma isplit_field_count_witness :
  Some "," <> Some EmptyString /\ (0 <= 2)%Z
  /\ exists fields,
       isplit_list (isplit (VStr "a,b,c,d") (opt_str (Some ",")) (VInt 2))
       = Some (fields, None)
       /\ List.length fields <= Z.to_nat 2 + 1.
Proof.
  split; [discriminate|]. split; [lia|].
  apply (isplit_field_count "a,b,c,d" (Some ",") 2); [discriminate | lia].
Defined.

(** X8. With a separator, no field but the last holds the separator; and
    when the number of splits is not limited the last holds none
    either. *)
Theorem isplit_fields_without_separator : forall text c d maxsplit,
  exists init last,
    isplit_list (isplit (VStr text) (VStr (String c d)) (opt_int maxsplit))
    = Some (init ++ [last], None)
    /\ Forall (fun f => ~ occurs_in (String c d) f) init
    /\ ((forall z, maxsplit = Some z -> (z < 0)%Z) ->
        ~ occurs_in (String c d) last).
Proof.
  intros text c d maxsplit.
  pose proof (isplit_list_str_split text (Some (String c d)) maxsplit
                ltac:(discriminate)) as H.
  simpl opt_str in H. rewrite H. unfold str_split.
  set (sep := list_ascii_of_string (String c d)).
  set (s := list_ascii_of_string text).
  set (n := match maxsplit with
            | Some z => if (z <? 0)%Z then List.length s else Z.to_nat z
            | None => List.length s
            end).
  destruct (split_sep_fields sep ltac:(discriminate) n s)
    as (init & last & -> & Hinit & Hlast).
  exists (map joined init), (joined last). rewrite map_app. simpl map.
  split; [reflexivity|]. split.
  - apply Forall_map. eapply Forall_impl; [|exact Hinit].
    intros f Hf Ho. apply Hf. apply occurs_in_contains. exact Ho.
  - intros Hz Ho. apply Hlast; [|apply occurs_in_contains; exact Ho].
    subst n. destruct maxsplit as [z|]; [|lia].
    specialize (Hz z eq_refl). apply Z.ltb_lt in Hz. rewrite Hz. lia.
Qed.

Lemma isplit_fields_without_separator_witness :
  (forall z, @None Z = Some z -> (z < 0)%Z)
  /\ exists init last,
       isplit_list (isplit (VStr "a::b") (VStr (String ":" ":")) (opt_int None))
       = Some (init ++ [last], None)
       /\ ~ occurs_in (String ":" ":") last.
Proof.
  split; [discriminate|].
  destruct (isplit_fields_without_separator "a::b" ":" ":" None)
    as (init & last & H & _ & Hlast).
  exists init, last. split; [exact H|]. apply Hlast. discriminate.
Defined.

(** X9. Without a separator and without a limit, no field holds
    whitespace, and the fields put end to end are the text without its
    whitespace. *)
Theorem isplit_words : forall text maxsplit,
  (forall z, maxsplit = Some z -> (z < 0)%Z) ->
  exists fields,
    isplit_list (isplit (VStr text) VNone (opt_int maxsplit)) = Some (fields, None)
    /\ Forall (fun f => forall c, In c (list_ascii_of_string f) -> isspace c = false)
         fields
    /\ List.concat (map list_ascii_of_string fields)
       = filter (fun c => negb (isspace c)) (list_ascii_of_string text).
Proof.
  intros text maxsplit Hz.
  pose proof (isplit_list_str_split text None maxsplit ltac:(discriminate)) as H.
  simpl opt_str in H. rewrite H. eexists. split; [reflexivity|].
  unfold str_split.
  set (s := list_ascii_of_string text).
  assert (En : match maxsplit with
               | Some z => if (z <? 0)%Z then List.length s else Z.to_nat z
               | None => List.length s
               end = List.length s).
  { destruct maxsplit as [z|]; [|reflexivity].
    specialize (Hz z eq_refl). apply Z.ltb_lt in Hz. rewrite Hz. reflexivity. }
  rewrite En.
  destruct (split_whitespace_words (List.length s) s (le_n _)) as [Hf Hc].
  split.
  - apply Forall_map. eapply Forall_impl; [|exact Hf].
    intros f Hns ch Hin. rewrite chars_joined in Hin.
    unfold nospace in Hns. rewrite Forall_forall in Hns. apply Hns. exact Hin.
  - rewrite concat_chars_joined. exact Hc.
Qed.

Lemma isplit_words_witness :
  (forall z, Some (-1)%Z = Some z -> (z < 0)%Z)
  /\ exists fields,
       isplit_list (isplit (VStr " a  b ") VNone (opt_int (Some (-1)%Z)))
       = Some (fields, None)
       /\ List.concat (map list_ascii_of_string fields)
          = filter (fun c => negb (isspace c)) (list_ascii_of_string " a  b ").
Proof.
  split; [intros z H; injection H as <-; lia|].
  destruct (isplit_words " a  b " (Some (-1)%Z)) as (fields & H & _ & Hc).
  { intros z H. injection H as <-. lia. }
  exists fields. split; assumption.
Defined.

(** X10. Without a separator a text that is all whitespace has no field,
    whatever the limit. *)
Theorem isplit_blank : forall text maxsplit,
  (forall c, In c (list_ascii_of_string text) -> isspace c = true) ->
  isplit_list (isplit (VStr text) VNone (opt_int maxsplit)) = Some ([], None).
Proof.
  intros text maxsplit Hblank.
  pose proof (isplit_list_str_split text None maxsplit ltac:(discriminate)) as H.
  simpl opt_str in H. rewrite H. unfold str_split.
  rewrite split_whitespace_eq, lstrip_spaces by assumption. reflexivity.
Qed.

Lemma isplit_blank_witness :
  (forall c, In c (list_ascii_of_string "  ") -> isspace c = true)
  /\ isplit_list (isplit (VStr "  ") VNone (opt_int (Some 3%Z))) = Some ([], None).
Proof.
  assert (Hb : forall c, In c (list_ascii_of_string "  ") -> isspace c = true).
  { intros c [<-|[<-|[]]]; reflexivity. }
  split; [exact Hb|].
  apply (isplit_blank "  " (Some 3%Z)). exact Hb.
Defined.

(** X11. With a separator, the text itself is the only field when the
    limit is 0, when the separator is longer than the text, or when the
    separator does not occur in the text. *)
Theorem isplit_whole_text : forall text c d maxsplit,
  maxsplit = Some 0%Z
  \/ String.length text < String.length (String c d)
  \/ ~ occurs_in (String c d) text ->
  isplit_list (isplit (VStr text) (VStr (String c d)) (opt_int maxsplit))
  = Some ([text], None).
Proof.
  intros text c d maxsplit Hcase.
  pose proof (isplit_list_str_split text (Some (String c d)) maxsplit
                ltac:(discriminate)) as H.
  simpl opt_str in H. rewrite H. unfold str_split.
  destruct Hcase as [-> | Hcase].
  - simpl. rewrite joined_chars. reflexivity.
  - rewrite split_sep_none; [simpl; rewrite joined_chars; reflexivity|].
    apply not_contains_str_partition.
    destruct Hcase as [Hlen | Hno].
    + intros (p & q & Hc). apply (f_equal (@List.length ascii)) in Hc.
      rewrite !length_app, !length_list_ascii_of_string in Hc. lia.
    + intros Hc. apply Hno. apply contains_occurs_in. exact Hc.
Qed.

Lemma isplit_whole_text_witness :
  (@None Z = Some 0%Z
   \/ String.length "ab" < String.length (String "a" "bc")
   \/ ~ occurs_in (String "a" "bc") "ab")
  /\ isplit_list (isplit (VStr "ab") (VStr (String "a" "bc")) (opt_int None))
     = Some (["ab"], None).
Proof.
  split; [right; left; simpl; lia|].
  apply (isplit_whole_text "ab" "a" "bc" None). right. left. simpl. lia.
Defined.

(** ** flatten *)

Lemma flatten_list_leaves : forall elems types p,
  flatten_list (flatten (VList elems) types (option_map returns p))
  = Some (flat_map (leaves types p) elems, None).
Proof.
  intros elems types p. rewrite flatten_list_reads. unfold py_iter.
  rewrite read_seq_leaves; [reflexivity|].
  apply Forall_forall. intros v _. apply read_leaves.
Qed.

Lemma Forall_flat_map_leaves : forall (P : value -> Prop) (f : value -> list value) l,
  Forall (fun x => Forall P (f x)) l -> Forall P (flat_map f l).
Proof.
  intros P f l H. induction H as [|x l Hx _ IH]; simpl; [constructor|].
  apply Forall_app. split; assumption.
Qed.

Lemma leaves_atomic : forall types p v,
  Forall (fun x => atomic types p x = true) (leaves types p v).
Proof.
  intros types p. induction v using value_nested_ind;
    rewrite leaves_eq;
    match goal with
    | |- context [if atomic types p ?v then _ else _] =>
        destruct (atomic types p v) eqn:E
    end;
    try (constructor; [exact E | constructor]);
    try (apply Forall_flat_map_leaves; assumption);
    unfold atomic in E; simpl in E;
    rewrite ?orb_true_r in E; discriminate.
Qed.

(** X12. Flattening what [flatten] produced produces it again, with the
    same protected types and a predicate that does not raise. *)
Theorem flatten_idempotent : forall elems protected_types protect_predicate,
  exists out,
    flatten_list
      (flatten (VList elems) protected_types (option_map returns protect_predicate))
    = Some (out, None)
    /\ flatten_list
         (flatten (VList out) protected_types (option_map returns protect_predicate))
       = Some (out, None).
Proof.
  intros elems types p. exists (flat_map (leaves types p) elems).
  split; [apply flatten_list_leaves|].
  rewrite flatten_list_leaves. f_equal. f_equal.
  apply flat_map_atomic. apply forallb_forall. intros v Hv.
  apply in_flat_map in Hv. destruct Hv as (x & _ & Hv).
  pose proof (leaves_atomic types p x) as H. rewrite Forall_forall in H.
  apply H. exact Hv.
Qed.

(** X13. Flattening a concatenation of two lists produces what the
    first gives followed by what the second gives. *)
Theorem flatten_concatenation : forall a b protected_types protect_predicate,
  exists out_a out_b,
    flatten_list
      (flatten (VList a) protected_types (option_map returns protect_predicate))
    = Some (out_a, None)
    /\ flatten_list
         (flatten (VList b) protected_types (option_map returns protect_predicate))
       = Some (out_b, None)
    /\ flatten_list
         (flatten (VList (a ++ b)) protected_types
            (option_map returns protect_predicate))
       = Some (out_a ++ out_b, None).
Proof.
  intros a b types p.
  exists (flat_map (leaves types p) a), (flat_map (leaves types p) b).
  rewrite !flatten_list_leaves, flat_map_app. auto.
Qed.

(** X14. Every value [flatten] yields is atomic: text, an instance of a
    protected type, a value the predicate protects, or a value that is
    not iterable.  With no protected type and no predicate it yields no
    list and no tuple. *)
Theorem flatten_yields_atomic : forall elems protected_types protect_predicate,
  exists out,
    flatten_list
      (flatten (VList elems) protected_types (option_map returns protect_predicate))
    = Some (out, None)
    /\ Forall (fun v => atomic protected_types protect_predicate v = true) out
    /\ (protected_types = [] -> protect_predicate = None ->
        Forall (fun v => forall l, v <> VList l /\ v <> VTuple l) out).
Proof.
  intros elems types p. exists (flat_map (leaves types p) elems).
  assert (H : Forall (fun v => atomic types p v = true)
                (flat_map (leaves types p) elems)).
  { apply Forall_flat_map_leaves. apply Forall_forall. intros v _.
    apply leaves_atomic. }
  split; [apply flatten_list_leaves|]. split; [exact H|].
  intros -> ->. eapply Forall_impl; [|exact H].
  intros v Hv l. split; intros ->; discriminate.
Qed.

Lemma flatten_yields_atomic_witness :
  @nil pytype = [] /\ @None (value -> bool) = None
  /\ exists out,
       flatten_list
         (flatten (VList [VList [VInt 1; VTuple []]; VStr "ab"]) []
            (option_map returns None))
       = Some (out, None)
       /\ Forall (fun v => forall l, v <> VList l /\ v <> VTuple l) out.
Proof.
  split; [reflexivity|]. split; [reflexivity|].
  destruct (flatten_yields_atomic [VList [VInt 1; VTuple []]; VStr "ab"] [] None)
    as (out & H & _ & Hno).
  exists out. split; [exact H | apply Hno; reflexivity].
Defined.





